(** * JsonStream: newline-delimited JSON framing over a chunked text stream

    A shallow embedding of [src/index.ts] (class [JsonStream]) and the
    properties its specification states about it.

    Modelling conventions
    - A JavaScript string is a [string]; each character stands for one
      UTF-16 code unit (restricted to the range 0..255), so [String.length]
      is the [.length] of the source.
    - [maxLineLength] is an integer ([Z]); its comparison with a length and
      the arithmetic of [substring] are written out, clamping included.
    - The platform functions [JSON.parse] and [JSON.stringify], the type of
      JavaScript values, and the output handle's [write] primitive are not
      code of this class: they are the variables of [Section JsonStreamModel].
    - Observers are modelled by the chronological log of the events the
      object emits; the performance recorder by the log of calls made to it;
      the output handle by the log of the texts written to it.  The
      handlers [on_data], [on_record], [feed] and the like are those of an
      object with an ['error'] listener; [on_data_to], [on_record_to],
      [feed_to] and the like take the presence of that listener as a
      parameter, since without one [emit('error', ...)] throws. *)

From Stdlib Require Import String Ascii List ZArith Bool Lia Arith DecimalString.
Import ListNotations.
Local Open Scope list_scope.
Local Open Scope string_scope.

(** ** String primitives of the platform *)

Module Js.

(** [s.substring(start)] for an integer [start]: indices below 0 count as 0
    ([Z.to_nat]) and indices above the length as the length ([drop]). *)
Fixpoint drop (n : nat) (s : string) : string :=
  match n, s with
  | O, _ => s
  | S _, EmptyString => EmptyString
  | S k, String _ s' => drop k s'
  end.

Definition substring_from (start : Z) (s : string) : string :=
  drop (Z.to_nat start) s.

(** Extends the head segment of a list of segments by one character. *)
Definition cons_head (c : ascii) (segs : list string) : list string :=
  match segs with
  | [] => [String c EmptyString]
  | h :: t => String c h :: t
  end.

(** Left-to-right scan for a non-empty separator.  [skip] counts the
    characters of a separator occurrence that are still to be consumed. *)
Fixpoint split_scan (sep : string) (skip : nat) (s : string) : list string :=
  match s with
  | EmptyString => [EmptyString]
  | String c s' =>
      match skip with
      | S k => split_scan sep k s'
      | O =>
          if prefix sep s
          then EmptyString :: split_scan sep (String.length sep - 1) s'
          else cons_head c (split_scan sep 0 s')
      end
  end.

Fixpoint code_units (s : string) : list string :=
  match s with
  | EmptyString => []
  | String c s' => String c EmptyString :: code_units s'
  end.

(** [s.split(sep)] for a string separator: with the empty separator the
    result is the list of code units (empty for the empty string). *)
Definition split (s sep : string) : list string :=
  match sep with
  | EmptyString => code_units s
  | _ => split_scan sep 0 s
  end.

(** The character class [\s], on code units below 256:
    TAB, LF, VT, FF, CR, SPACE and NBSP. *)
Definition is_space (c : ascii) : bool :=
  let n := nat_of_ascii c in
  (Nat.leb 9 n && Nat.leb n 13) || Nat.eqb n 32 || Nat.eqb n 160.

(** [/^\s*\{/] : optional white space, then an opening brace. *)
Fixpoint match_record (s : string) : bool :=
  match s with
  | EmptyString => false
  | String c s' =>
      if Ascii.eqb c "{"%char then true
      else if is_space c then match_record s'
      else false
  end.

(** [/\S/] : some character that is not white space. *)
Fixpoint match_nonspace (s : string) : bool :=
  match s with
  | EmptyString => false
  | String c s' => negb (is_space c) || match_nonspace s'
  end.

(** [Array.prototype.pop]: the array without its last element, and that
    element ([None] stands for [undefined], on the empty array). *)
Definition pop (l : list string) : list string * option string :=
  match l with
  | [] => ([], None)
  | _ => (removelast l, Some (last l EmptyString))
  end.

(** [s] contains the code unit [c]. *)
Fixpoint has_char (c : ascii) (s : string) : bool :=
  match s with
  | EmptyString => false
  | String a s' => Ascii.eqb a c || has_char c s'
  end.

(** The first [n] code units of [s]. *)
Fixpoint take (n : nat) (s : string) : string :=
  match n, s with
  | O, _ => EmptyString
  | S _, EmptyString => EmptyString
  | S k, String a s' => String a (take k s')
  end.

(** [s] ends with [suffix], by the test the handler uses for the delimiter. *)
Definition ends_with (s suffix : string) : bool :=
  substring_from
    (Z.of_nat (String.length s) - Z.of_nat (String.length suffix)) s
  =? suffix.

(** [t] without a trailing [eol], if it has one. *)
Definition chomp (eol t : string) : string :=
  if ends_with t eol
  then take (String.length t - String.length eol) t
  else t.

(** The text of the lines [lines], each followed by [eol], and then of
    the unterminated [tail]. *)
Fixpoint unlines (eol : string) (lines : list string) (tail : string)
  : string :=
  match lines with
  | [] => tail
  | l :: rest => l ++ eol ++ unlines eol rest tail
  end.

(** [sep] occurs in [s], at some position. *)
Fixpoint occurs_in (sep s : string) : bool :=
  match s with
  | EmptyString => prefix sep s
  | String _ s' => prefix sep s || occurs_in sep s'
  end.

(** The text [s] with every apostrophe replaced by a double quote: the way
    the JSON texts of the examples are written down. *)
Fixpoint dquotes (s : string) : string :=
  match s with
  | EmptyString => EmptyString
  | String a s' =>
      String (if Ascii.eqb a "'"%char then "034"%char else a) (dquotes s')
  end.

(** The line feed, as a string. *)
Definition LF : string := String "010"%char EmptyString.

End Js.

(** ** Data model *)

(** A thrown or reported [Error] object. *)
Record JsError := mkError { message : string }.

(** The outcome of a call that may throw. *)
Inductive Completion (A : Type) : Type :=
| Normal (a : A)
| Thrown (e : JsError).
Arguments Normal {A} a.
Arguments Thrown {A} e.

(** Calls on the optional performance recorder. *)
Inductive PerfCall : Type :=
| PerfBegin (key : string)
| PerfEnd (key : string)
| PerfCount (key : string) (amount : Z).

(** The fields of a [JsonStream] object.  [buffer] is [None] until its first
    assignment (the field is declared without initialiser); [perf] tells
    whether a recorder is attached; [separateStreams] is
    [streamOut != streamIn]. *)
Record JsonStream := mkJsonStream {
  buffer : option string;
  perf : bool;
  preserveWhitespace : bool;
  maxLineLength : Z;
  EOL : string;
  separateStreams : bool
}.

(** The object as the constructor leaves it, with the field initialisers of
    the class. *)
Definition new_JsonStream (separate : bool) : JsonStream :=
  mkJsonStream None false false (1024 * 1024) Js.LF separate.

(** [setPerf]: attaches a recorder ([true]) or a falsy value ([false]). *)
Definition setPerf (attached : bool) (o : JsonStream) : JsonStream :=
  mkJsonStream (buffer o) attached (preserveWhitespace o) (maxLineLength o)
               (EOL o) (separateStreams o).

(** The constructor, for stream handles named by numbers: a missing output
    handle is replaced by the input handle, and the object remembers
    whether the two differ. *)
Definition constructor (stream_in : nat) (stream_out : option nat)
  : JsonStream :=
  let stream_out :=
    match stream_out with
    | Some h => h
    | None => stream_in
    end in
  new_JsonStream (negb (Nat.eqb stream_out stream_in)).


(** The text of the Pending Buffer: an unassigned buffer holds nothing. *)
Definition pending (o : JsonStream) : string :=
  match buffer o with
  | None => EmptyString
  | Some b => b
  end.

(** Truthiness of the [buffer] field, the test of [if (self.buffer)]. *)
Definition buffer_truthy (o : JsonStream) : bool :=
  match buffer o with
  | None => false
  | Some b => negb (b =? EmptyString)
  end.

(** ** A reference JSON codec

    A concrete stand-in for the platform's values and for [JSON.parse] and
    [JSON.stringify], used to instantiate the model on concrete inputs:
    JSON trees whose numbers are integers, together with [undefined] (no
    JSON form) and [BigInt] (which [JSON.stringify] refuses).  It is not
    the platform's codec: it rejects fractions and exponents, keeps every
    member of an object with repeated keys, and reports every syntax error
    with one fixed message.  No statement about the class depends on it. *)

Module RefJSON.

#[warnings="-register-all"]
Inductive value : Type :=
| Null
| Bool (b : bool)
| Num (z : Z)
| Str (s : string)
| Arr (items : list value)
| Obj (members : list (string * value))
| Undefined
| BigInt (z : Z).

Definition truthy (v : value) : bool :=
  match v with
  | Null | Undefined => false
  | Bool b => b
  | Num z | BigInt z => negb (z =? 0)%Z
  | Str s => negb (s =? "")
  | Arr _ | Obj _ => true
  end.

Definition dq : ascii := "034"%char.
Definition bs : ascii := "\"%char.

Definition hex_digit (n : nat) : ascii :=
  ascii_of_nat (if Nat.ltb n 10 then 48 + n else 87 + n).

Definition escape_char (c : ascii) : string :=
  let n := nat_of_ascii c in
  if Ascii.eqb c dq then String bs (String dq "")
  else if Ascii.eqb c bs then String bs (String bs "")
  else if Nat.ltb n 32 then
    match n with
    | 8 => "\b" | 9 => "\t" | 10 => "\n" | 12 => "\f" | 13 => "\r"
    | _ => "\u00" ++ String (hex_digit (n / 16))
                       (String (hex_digit (n mod 16)) "")
    end
  else String c "".

Fixpoint escape (s : string) : string :=
  match s with
  | EmptyString => ""
  | String c r => escape_char c ++ escape r
  end.

Definition quote (s : string) : string :=
  String dq (escape s ++ String dq "").

Definition decimal (z : Z) : string := NilZero.string_of_int (Z.to_int z).

Definition bigint_error : JsError :=
  mkError "Do not know how to serialize a BigInt".

Fixpoint stringify (v : value) : Completion (option string) :=
  match v with
  | Null => Normal (Some "null")
  | Bool true => Normal (Some "true")
  | Bool false => Normal (Some "false")
  | Num z => Normal (Some (decimal z))
  | Str s => Normal (Some (quote s))
  | Undefined => Normal None
  | BigInt _ => Thrown bigint_error
  | Arr items =>
      let fix elems (l : list value) : Completion (list string) :=
        match l with
        | [] => Normal []
        | x :: r =>
            match stringify x, elems r with
            | Normal (Some t), Normal ts => Normal (t :: ts)
            | Normal None, Normal ts => Normal ("null" :: ts)
            | Thrown e, _ => Thrown e
            | _, Thrown e => Thrown e
            end
        end in
      match elems items with
      | Normal ts => Normal (Some ("[" ++ String.concat "," ts ++ "]"))
      | Thrown e => Thrown e
      end
  | Obj members =>
      let fix membs (l : list (string * value)) : Completion (list string) :=
        match l with
        | [] => Normal []
        | (k, x) :: r =>
            match stringify x, membs r with
            | Normal (Some t), Normal ts => Normal ((quote k ++ ":" ++ t) :: ts)
            | Normal None, Normal ts => Normal ts
            | Thrown e, _ => Thrown e
            | _, Thrown e => Thrown e
            end
        end in
      match membs members with
      | Normal ts => Normal (Some ("{" ++ String.concat "," ts ++ "}"))
      | Thrown e => Thrown e
      end
  end.


(** *** Parsing *)

Definition is_ws (c : ascii) : bool :=
  let n := nat_of_ascii c in
  Nat.eqb n 32 || Nat.eqb n 9 || Nat.eqb n 10 || Nat.eqb n 13.

Fixpoint skip_ws (s : string) : string :=
  match s with
  | String c r => if is_ws c then skip_ws r else s
  | EmptyString => s
  end.

Definition is_digit (c : ascii) : bool :=
  let n := nat_of_ascii c in Nat.leb 48 n && Nat.leb n 57.

Definition hex_value (c : ascii) : option nat :=
  let n := nat_of_ascii c in
  if Nat.leb 48 n && Nat.leb n 57 then Some (n - 48)
  else if Nat.leb 97 n && Nat.leb n 102 then Some (n - 87)
  else if Nat.leb 65 n && Nat.leb n 70 then Some (n - 55)
  else None.

(** The character an escape letter denotes. *)
Definition unescape (c : ascii) : option ascii :=
  if Ascii.eqb c dq then Some dq
  else if Ascii.eqb c bs then Some bs
  else if Ascii.eqb c "/" then Some "/"%char
  else if Ascii.eqb c "b" then Some "008"%char
  else if Ascii.eqb c "t" then Some "009"%char
  else if Ascii.eqb c "n" then Some "010"%char
  else if Ascii.eqb c "f" then Some "012"%char
  else if Ascii.eqb c "r" then Some "013"%char
  else None.

(** The characters of a string literal after its opening quote, up to the
    closing quote; the rest of the input follows. *)
Fixpoint parse_chars (s : string) : option (string * string) :=
  match s with
  | EmptyString => None
  | String c r =>
      if Ascii.eqb c dq then Some ("", r)
      else if Ascii.eqb c bs then
        match r with
        | String "u" (String "0" (String "0" (String h (String l r')))) =>
            match hex_value h, hex_value l, parse_chars r' with
            | Some a, Some b, Some (t, rest) =>
                Some (String (ascii_of_nat (16 * a + b)) t, rest)
            | _, _, _ => None
            end
        | String e r' =>
            match unescape e, parse_chars r' with
            | Some ch, Some (t, rest) => Some (String ch t, rest)
            | _, _ => None
            end
        | EmptyString => None
        end
      else if Nat.ltb (nat_of_ascii c) 32 then None
      else
        match parse_chars r with
        | Some (t, rest) => Some (String c t, rest)
        | None => None
        end
  end.

(** The longest run of digits, as a number, the count of digits, and the
    rest. *)
Fixpoint parse_digits (acc : Z) (s : string) : Z * string :=
  match s with
  | String c r =>
      if is_digit c
      then parse_digits (10 * acc + Z.of_nat (nat_of_ascii c - 48)) r
      else (acc, s)
  | EmptyString => (acc, s)
  end.

(** [0] or a digit other than [0] followed by digits. *)
Definition parse_natural (s : string) : option (Z * string) :=
  match s with
  | String c r =>
      if Ascii.eqb c "0" then Some (0%Z, r)
      else if is_digit c then Some (parse_digits 0 s)
      else None
  | EmptyString => None
  end.

Definition parse_number (s : string) : option (Z * string) :=
  match s with
  | String "-" r =>
      match parse_natural r with
      | Some (n, rest) => Some ((- n)%Z, rest)
      | None => None
      end
  | _ => parse_natural s
  end.

Definition expect (word : string) (v : value) (s : string)
  : option (value * string) :=
  if prefix word s then Some (v, Js.drop (String.length word) s) else None.

Fixpoint parse_value (fuel : nat) (s : string) : option (value * string) :=
  match fuel with
  | O => None
  | S f =>
      match s with
      | String "n" _ => expect "null" Null s
      | String "t" _ => expect "true" (Bool true) s
      | String "f" _ => expect "false" (Bool false) s
      | String "[" r =>
          match skip_ws r with
          | String "]" r' => Some (Arr [], r')
          | r' =>
              match parse_elems f r' with
              | Some (vs, rest) => Some (Arr vs, rest)
              | None => None
              end
          end
      | String "{" r =>
          match skip_ws r with
          | String "}" r' => Some (Obj [], r')
          | r' =>
              match parse_members f r' with
              | Some (ms, rest) => Some (Obj ms, rest)
              | None => None
              end
          end
      | String c r =>
          if Ascii.eqb c dq then
            match parse_chars r with
            | Some (t, rest) => Some (Str t, rest)
            | None => None
            end
          else
            match parse_number s with
            | Some (n, rest) => Some (Num n, rest)
            | None => None
            end
      | EmptyString => None
      end
  end
with parse_elems (fuel : nat) (s : string) : option (list value * string) :=
  match fuel with
  | O => None
  | S f =>
      match parse_value f s with
      | Some (v, r) =>
          match skip_ws r with
          | String "]" r' => Some ([v], r')
          | String "," r' =>
              match parse_elems f (skip_ws r') with
              | Some (vs, rest) => Some (v :: vs, rest)
              | None => None
              end
          | _ => None
          end
      | None => None
      end
  end
with parse_members (fuel : nat) (s : string)
  : option (list (string * value) * string) :=
  match fuel with
  | O => None
  | S f =>
      match s with
      | String c r =>
          if Ascii.eqb c dq then
            match parse_chars r with
            | Some (k, r1) =>
                match skip_ws r1 with
                | String ":" r2 =>
                    match parse_value f (skip_ws r2) with
                    | Some (v, r3) =>
                        match skip_ws r3 with
                        | String "}" r' => Some ([(k, v)], r')
                        | String "," r' =>
                            match parse_members f (skip_ws r') with
                            | Some (ms, rest) => Some ((k, v) :: ms, rest)
                            | None => None
                            end
                        | _ => None
                        end
                    | None => None
                    end
                | _ => None
                end
            | None => None
            end
          else None
      | EmptyString => None
      end
  end.

Definition syntax_error : JsError := mkError "Unexpected token in JSON".

Definition parse (s : string) : Completion value :=
  match parse_value (S (String.length s)) (skip_ws s) with
  | Some (v, rest) =>
      match skip_ws rest with
      | EmptyString => Normal v
      | _ => Thrown syntax_error
      end
  | None => Thrown syntax_error
  end.

End RefJSON.

(** ** The class, over the platform's JSON codec and output handle *)

Section JsonStreamModel.

(** JavaScript values, their truthiness, and the platform's codec:
    [JSON.parse] throws on malformed text; [JSON.stringify] throws on a
    value it cannot serialise and returns [undefined] ([None]) for a value
    that has no JSON form. *)
Variable Value : Type.
Variable truthy : Value -> bool.
Variable JSON_parse : string -> Completion Value.
Variable JSON_stringify : Value -> Completion (option string).

(** The output handle's [write] primitive: the completion callbacks it
    accepts, and the signal it reports for a text given the writes already
    made. *)
Variable Callback : Type.
Variable stream_write : list (string * option Callback) -> string -> bool.

(** What observers of the object receive. *)
Inductive Event : Type :=
| EvJson (value : Value)
| EvText (text : string)
| EvParseError (err : JsError) (record : string)
| EvStreamError (err : JsError)
| EvStreamErrorText (text : string)
| EvEnd.

(** The object together with everything it acts upon. *)
Record World := mkWorld {
  self : JsonStream;
  events : list Event;
  perf_calls : list PerfCall;
  out : list (string * option Callback)
}.

(** Computations that read and update the world and may throw. *)
Definition M (A : Type) : Type := World -> Completion A * World.

Definition ret {A} (a : A) : M A := fun w => (Normal a, w).

Definition bind {A B} (m : M A) (k : A -> M B) : M B :=
  fun w =>
    match m w with
    | (Normal a, w') => k a w'
    | (Thrown e, w') => (Thrown e, w')
    end.

Definition throw {A} (e : JsError) : M A := fun w => (Thrown e, w).

(** [try { m } catch (e) { h e }] *)
Definition try_catch {A} (m : M A) (h : JsError -> M A) : M A :=
  fun w =>
    match m w with
    | (Normal a, w') => (Normal a, w')
    | (Thrown e, w') => h e w'
    end.

Definition lift {A} (c : Completion A) : M A := fun w => (c, w).

Definition get_self : M JsonStream := fun w => (Normal (self w), w).

Definition assign_buffer (b : option string) : M unit :=
  fun w =>
    let o := self w in
    (Normal tt,
     mkWorld (mkJsonStream b (perf o) (preserveWhitespace o) (maxLineLength o)
                           (EOL o) (separateStreams o))
             (events w) (perf_calls w) (out w)).

(** [emit] on an object whose observers are attached, an ['error']
    listener among them: the event is appended to the log.  What [emit]
    does on an object without an ['error'] listener is [emit_to] below. *)
Definition emit (e : Event) : M unit :=
  fun w => (Normal tt, mkWorld (self w) (events w ++ [e])%list (perf_calls w) (out w)).

Definition perf_call (c : PerfCall) : M unit :=
  fun w => (Normal tt, mkWorld (self w) (events w) (perf_calls w ++ [c])%list (out w)).

Definition streamOut_write (text : string) (cb : option Callback) : M bool :=
  fun w =>
    (Normal (stream_write (out w) text),
     mkWorld (self w) (events w) (perf_calls w) (out w ++ [(text, cb)])%list).

Definition when (b : bool) (m : M unit) : M unit := if b then m else ret tt.

Notation "x <- m ;; k" := (bind m (fun x => k))
  (at level 61, m at next level, right associativity).
Notation "m ;;; k" := (bind m (fun _ => k))
  (at level 61, right associativity).

(** *** Frame Reader: the ['data'] handler of [init] *)

(** The body of the [for] loop, for [records[idx]] of [len] records. *)
Definition on_record (idx len : nat) (record : string) : M unit :=
  o <- get_self ;;
  if Js.match_record record then
    when (perf o) (perf_call (PerfBegin "json_stream_parse")) ;;;
    json <- try_catch
              (v <- lift (JSON_parse record) ;; ret (Some v))
              (fun e =>
                 emit (EvParseError
                         (mkError ("JSON Parse Error: " ++ message e)) record) ;;;
                 ret None) ;;
    when (perf o)
      (perf_call (PerfEnd "json_stream_parse") ;;;
       perf_call (PerfCount "json_stream_msgs_read" 1) ;;;
       perf_call (PerfCount "json_stream_bytes_read"
                    (Z.of_nat (String.length record)
                     + Z.of_nat (String.length (EOL o))))) ;;;
    match json with
    | Some v => when (truthy v) (emit (EvJson v))
    | None => ret tt
    end
  else if preserveWhitespace o || Js.match_nonspace record then
    let text := record ++ (if Nat.ltb idx (len - 1) then EOL o else "") in
    when (negb (text =? "")) (emit (EvText text))
  else ret tt.

(** [for (var idx = 0, len = records.length; idx < len; idx++)], entered at
    [idx] with the records from [idx] on. *)
Fixpoint for_records (idx len : nat) (records : list string) : M unit :=
  match records with
  | [] => ret tt
  | record :: rest =>
      on_record idx len record ;;; for_records (S idx) len rest
  end.

(** The text to split: the chunk, preceded by a non-empty buffer and then
    cut down to its last [maxLineLength] code units. *)
Definition incoming (o : JsonStream) (data : string) : string :=
  if buffer_truthy o then
    let data := pending o ++ data in
    if (Z.of_nat (String.length data) >? maxLineLength o)%Z
    then Js.substring_from
           (Z.of_nat (String.length data) - maxLineLength o) data
    else data
  else data.

(** [data.substring(data.length - EOL.length) != EOL] *)
Definition ends_on_EOL (data eol : string) : bool :=
  Js.substring_from
    (Z.of_nat (String.length data) - Z.of_nat (String.length eol)) data
  =? eol.

Definition on_data (chunk : string) : M unit :=
  o <- get_self ;;
  let data := incoming o chunk in
  when (buffer_truthy o) (assign_buffer (Some "")) ;;;
  let records := Js.split data (EOL o) in
  records <-
    (if negb (ends_on_EOL data (EOL o)) then
       let (front, last) := Js.pop records in
       assign_buffer last ;;; ret front
     else ret records) ;;
  for_records 0 (List.length records) records.

(** *** Error and end-of-input handlers of [init] *)

Definition on_streamIn_error (err : JsError) : M unit :=
  o <- get_self ;;
  if separateStreams o
  then emit (EvStreamErrorText ("Error in input stream: " ++ message err))
  else emit (EvStreamError err).

(** Registered only when the two handles differ. *)
Definition on_streamOut_error (err : JsError) : M unit :=
  o <- get_self ;;
  if separateStreams o
  then emit (EvStreamErrorText ("Error in output stream: " ++ message err))
  else ret tt.

Definition on_end : M unit := emit EvEnd.

(** *** Frame Writer: [write] *)

Definition undefined_length_error : JsError :=
  mkError "Cannot read properties of undefined (reading 'length')".

Definition write (json : Value) (callback : option Callback) : M bool :=
  o <- get_self ;;
  when (perf o) (perf_call (PerfBegin "json_stream_compose")) ;;;
  data <- lift (JSON_stringify json) ;;
  when (perf o)
    (perf_call (PerfEnd "json_stream_compose") ;;;
     perf_call (PerfCount "json_stream_msgs_written" 1) ;;;
     len <- match data with
            | Some s => ret (Z.of_nat (String.length s))
            | None => throw undefined_length_error
            end ;;
     perf_call (PerfCount "json_stream_bytes_written"
                  (len + Z.of_nat (String.length (EOL o))))) ;;;
  let text := match data with
              | Some s => s
              | None => "undefined"
              end ++ EOL o in
  result <- streamOut_write text callback ;;
  when (negb result && perf o)
    (perf_call (PerfCount "json_stream_write_buffer" 1)) ;;;
  ret result.

(** *** Running a reader *)

Definition new_World (o : JsonStream) : World := mkWorld o [] [] [].

(** The world after a computation, whatever its completion. *)
Definition exec {A} (m : M A) (w : World) : World := snd (m w).

(** Chunks delivered one after the other; a handler that throws does not
    stop later deliveries. *)
Fixpoint feed (chunks : list string) (w : World) : World :=
  match chunks with
  | [] => w
  | c :: rest => feed rest (exec (on_data c) w)
  end.

(** ** What one invocation of the ['data'] handler does

    The handler as three pure functions of the object and the chunk: the
    events it emits, the recorder calls it makes, and the buffer it leaves.
    [on_data_run] below proves that the handler computes exactly these. *)

Definition parse_events (record : string) : list Event :=
  match JSON_parse record with
  | Normal v => if truthy v then [EvJson v] else []
  | Thrown e =>
      [EvParseError (mkError ("JSON Parse Error: " ++ message e)) record]
  end.

Definition text_events (o : JsonStream) (idx len : nat) (record : string)
  : list Event :=
  if preserveWhitespace o || Js.match_nonspace record then
    let text := record ++ (if Nat.ltb idx (len - 1) then EOL o else "") in
    if text =? "" then [] else [EvText text]
  else [].

Definition record_events (o : JsonStream) (idx len : nat) (record : string)
  : list Event :=
  if Js.match_record record then parse_events record
  else text_events o idx len record.

Definition record_perf (o : JsonStream) (record : string) : list PerfCall :=
  if Js.match_record record && perf o then
    [PerfBegin "json_stream_parse"; PerfEnd "json_stream_parse";
     PerfCount "json_stream_msgs_read" 1;
     PerfCount "json_stream_bytes_read"
       (Z.of_nat (String.length record) + Z.of_nat (String.length (EOL o)))]
  else [].

Fixpoint records_events (o : JsonStream) (idx len : nat)
  (records : list string) : list Event :=
  match records with
  | [] => []
  | r :: rest =>
      (record_events o idx len r ++ records_events o (S idx) len rest)%list
  end.

Fixpoint records_perf (o : JsonStream) (records : list string)
  : list PerfCall :=
  match records with
  | [] => []
  | r :: rest => (record_perf o r ++ records_perf o rest)%list
  end.

(** The records the loop runs over. *)
Definition data_records (o : JsonStream) (chunk : string) : list string :=
  let data := incoming o chunk in
  let records := Js.split data (EOL o) in
  if negb (ends_on_EOL data (EOL o)) then fst (Js.pop records) else records.

(** The [buffer] field when the handler returns. *)
Definition data_buffer (o : JsonStream) (chunk : string) : option string :=
  let data := incoming o chunk in
  if negb (ends_on_EOL data (EOL o))
  then snd (Js.pop (Js.split data (EOL o)))
  else if buffer_truthy o then Some "" else buffer o.

Definition data_events (o : JsonStream) (chunk : string) : list Event :=
  let records := data_records o chunk in
  records_events o 0 (List.length records) records.

Definition with_buffer (o : JsonStream) (b : option string) : JsonStream :=
  mkJsonStream b (perf o) (preserveWhitespace o) (maxLineLength o)
               (EOL o) (separateStreams o).

Definition after_data (chunk : string) (w : World) : World :=
  let o := self w in
  mkWorld (with_buffer o (data_buffer o chunk))
          (events w ++ data_events o chunk)%list
          (perf_calls w ++ records_perf o (data_records o chunk))%list
          (out w).

(** ** Lines and events, independently of chunking *)

(** An event with the delimiter removed from the end of a text payload. *)
Definition strip_event (eol : string) (e : Event) : Event :=
  match e with
  | EvText t => EvText (Js.chomp eol t)
  | _ => e
  end.

(** The events of one complete line, the text payload being the bare
    line. *)
Definition line_events (o : JsonStream) (line : string) : list Event :=
  if Js.match_record line then parse_events line
  else if preserveWhitespace o || Js.match_nonspace line then
    if line =? "" then [] else [EvText line]
  else [].

(** The delimiter as a single code unit. *)
Definition eol1 (c : ascii) : string := String c EmptyString.

(** ** Events of a sequence of chunks, and what the recorder has counted *)

(** The events of the chunks [chunks] delivered to the object [o], as a
    function of [o] alone. *)
Fixpoint feed_events (o : JsonStream) (chunks : list string) : list Event :=
  match chunks with
  | [] => []
  | c :: rest =>
      (data_events o c
       ++ feed_events (with_buffer o (data_buffer o c)) rest)%list
  end.

(** What an event emitted by the chunk-arrival handler looks like: a text
    event is not empty, a json event carries a truthy value, an error event
    carries a record that passed the pre-check and a message with the
    prefix of the handler. *)
Definition data_event_ok (e : Event) : bool :=
  match e with
  | EvText t => negb (t =? "")
  | EvJson v => truthy v
  | EvParseError err r =>
      Js.match_record r && prefix "JSON Parse Error: " (message err)
  | _ => false
  end.

(** The events of a decode attempt. *)
Definition is_decode_event (e : Event) : bool :=
  match e with
  | EvJson _ | EvParseError _ _ => true
  | _ => false
  end.

(** The total the recorder has been asked to add to the counter [key]. *)
Fixpoint counted (key : string) (calls : list PerfCall) : Z :=
  match calls with
  | [] => 0
  | PerfCount k n :: rest =>
      ((if String.eqb k key then n else 0) + counted key rest)%Z
  | _ :: rest => counted key rest
  end.

(** The number of timer spans of [key] begun minus the number ended. *)
Fixpoint open_spans (key : string) (calls : list PerfCall) : Z :=
  match calls with
  | [] => 0
  | PerfBegin k :: rest =>
      ((if String.eqb k key then 1 else 0) + open_spans key rest)%Z
  | PerfEnd k :: rest =>
      ((if String.eqb k key then -1 else 0) + open_spans key rest)%Z
  | _ :: rest => open_spans key rest
  end.

(** Values written one after the other, without callback; a call that
    throws does not stop the later ones. *)
Fixpoint write_all (values : list Value) (w : World) : World :=
  match values with
  | [] => w
  | v :: rest => write_all rest (exec (write v None) w)
  end.

(** ** Objects without an ['error'] listener

    The log of [emit] stands for the observers of the object.  An event
    other than ['error'] that nobody listens to is lost without further
    effect, but [emit('error', ...)] on an object that has no ['error']
    listener throws: its first argument when that is an [Error] object, and
    otherwise an error whose message quotes the argument as the platform's
    [inspect] prints it.  The definitions below take the presence of an
    ['error'] listener as a parameter; with one they are the handlers
    above. *)

Variable inspect : string -> string.

Definition unhandled_error (text : string) : JsError :=
  mkError ("Unhandled error. (" ++ inspect text ++ ")").

Definition emit_to (listening : bool) (e : Event) : M unit :=
  match e with
  | EvParseError err _ | EvStreamError err =>
      if listening then emit e else throw err
  | EvStreamErrorText text =>
      if listening then emit e else throw (unhandled_error text)
  | _ => emit e
  end.

Definition on_record_to (listening : bool) (idx len : nat) (record : string)
  : M unit :=
  o <- get_self ;;
  if Js.match_record record then
    when (perf o) (perf_call (PerfBegin "json_stream_parse")) ;;;
    json <- try_catch
              (v <- lift (JSON_parse record) ;; ret (Some v))
              (fun e =>
                 emit_to listening
                   (EvParseError
                      (mkError ("JSON Parse Error: " ++ message e)) record) ;;;
                 ret None) ;;
    when (perf o)
      (perf_call (PerfEnd "json_stream_parse") ;;;
       perf_call (PerfCount "json_stream_msgs_read" 1) ;;;
       perf_call (PerfCount "json_stream_bytes_read"
                    (Z.of_nat (String.length record)
                     + Z.of_nat (String.length (EOL o))))) ;;;
    match json with
    | Some v => when (truthy v) (emit_to listening (EvJson v))
    | None => ret tt
    end
  else if preserveWhitespace o || Js.match_nonspace record then
    let text := record ++ (if Nat.ltb idx (len - 1) then EOL o else "") in
    when (negb (text =? "")) (emit_to listening (EvText text))
  else ret tt.

Fixpoint for_records_to (listening : bool) (idx len : nat)
  (records : list string) : M unit :=
  match records with
  | [] => ret tt
  | record :: rest =>
      on_record_to listening idx len record ;;;
      for_records_to listening (S idx) len rest
  end.

Definition on_data_to (listening : bool) (chunk : string) : M unit :=
  o <- get_self ;;
  let data := incoming o chunk in
  when (buffer_truthy o) (assign_buffer (Some "")) ;;;
  let records := Js.split data (EOL o) in
  records <-
    (if negb (ends_on_EOL data (EOL o)) then
       let (front, last) := Js.pop records in
       assign_buffer last ;;; ret front
     else ret records) ;;
  for_records_to listening 0 (List.length records) records.

Definition on_streamIn_error_to (listening : bool) (err : JsError) : M unit :=
  o <- get_self ;;
  if separateStreams o
  then emit_to listening
         (EvStreamErrorText ("Error in input stream: " ++ message err))
  else emit_to listening (EvStreamError err).

Definition on_streamOut_error_to (listening : bool) (err : JsError)
  : M unit :=
  o <- get_self ;;
  if separateStreams o
  then emit_to listening
         (EvStreamErrorText ("Error in output stream: " ++ message err))
  else ret tt.

Fixpoint feed_to (listening : bool) (chunks : list string) (w : World)
  : World :=
  match chunks with
  | [] => w
  | c :: rest => feed_to listening rest (exec (on_data_to listening c) w)
  end.

(** *** What an invocation does without a listener *)

(** The error the loop body throws on [record] when nobody listens. *)
Definition decode_failure (record : string) : option JsError :=
  if Js.match_record record then
    match JSON_parse record with
    | Thrown e => Some (mkError ("JSON Parse Error: " ++ message e))
    | Normal _ => None
    end
  else None.

Fixpoint first_failure (records : list string) : option JsError :=
  match records with
  | [] => None
  | r :: rest =>
      match decode_failure r with
      | Some e => Some e
      | None => first_failure rest
      end
  end.

(** The records before the first one that fails to decode. *)
Fixpoint before_failure (records : list string) : list string :=
  match records with
  | [] => []
  | r :: rest =>
      match decode_failure r with
      | Some _ => []
      | None => r :: before_failure rest
      end
  end.

Definition completion_to (listening : bool) (records : list string)
  : Completion unit :=
  if listening then Normal tt
  else match first_failure records with
       | Some e => Thrown e
       | None => Normal tt
       end.

Definition events_to (listening : bool) (o : JsonStream) (idx len : nat)
  (records : list string) : list Event :=
  records_events o idx len
    (if listening then records else before_failure records).

Definition perf_to (listening : bool) (o : JsonStream)
  (records : list string) : list PerfCall :=
  if listening then records_perf o records
  else
    (records_perf o (before_failure records)
     ++ match first_failure records with
        | Some _ => if perf o then [PerfBegin "json_stream_parse"] else []
        | None => []
        end)%list.

Definition after_data_to (listening : bool) (chunk : string) (w : World)
  : World :=
  let o := self w in
  let records := data_records o chunk in
  mkWorld (with_buffer o (data_buffer o chunk))
          (events w ++ events_to listening o 0 (List.length records) records)%list
          (perf_calls w ++ perf_to listening o records)%list
          (out w).

(** *** Invocations that cut nothing off *)

(** The handler does not cut the text: the buffer is empty, or the buffer
    followed by the chunk is within [maxLineLength]. *)
Definition uncut (o : JsonStream) (chunk : string) : bool :=
  negb (buffer_truthy o)
  || (Z.of_nat (String.length (pending o ++ chunk)) <=? maxLineLength o)%Z.

Fixpoint never_cut (chunks : list string) (w : World) : bool :=
  match chunks with
  | [] => true
  | c :: rest => uncut (self w) c && never_cut rest (exec (on_data c) w)
  end.

(** ** The handler computes [after_data] and returns normally *)

Lemma on_record_run (idx len : nat) (record : string) (w : World) :
  on_record idx len record w =
  (Normal tt,
   mkWorld (self w)
           (events w ++ record_events (self w) idx len record)%list
           (perf_calls w ++ record_perf (self w) record)%list
           (out w)).
Proof.
  destruct w as [o ev pc ou].
  unfold on_record, record_events, record_perf, parse_events, text_events,
    bind, get_self, try_catch, lift, when, emit, perf_call, ret; simpl.
  destruct (Js.match_record record); simpl.
  - destruct (perf o); simpl;
      destruct (JSON_parse record) as [v | e]; simpl;
      try destruct (truthy v); simpl;
      rewrite ?app_nil_r, <- ?app_assoc; reflexivity.
  - destruct (preserveWhitespace o || Js.match_nonspace record); simpl.
    + destruct (record ++ (if Nat.ltb idx (len - 1) then EOL o else "") =? "");
        simpl; rewrite ?app_nil_r; reflexivity.
    + rewrite !app_nil_r; reflexivity.
Qed.

Lemma for_records_run (records : list string) :
  forall (idx len : nat) (w : World),
    for_records idx len records w =
    (Normal tt,
     mkWorld (self w)
             (events w ++ records_events (self w) idx len records)%list
             (perf_calls w ++ records_perf (self w) records)%list
             (out w)).
Proof.
  induction records as [| r rest IH]; intros idx len w.
  - destruct w; simpl; unfold ret; rewrite !app_nil_r; reflexivity.
  - simpl. unfold bind. rewrite on_record_run. rewrite IH. simpl.
    rewrite <- !app_assoc. reflexivity.
Qed.

Lemma records_events_with_buffer (o : JsonStream) (b : option string)
  (records : list string) :
  forall idx len,
    records_events (with_buffer o b) idx len records
    = records_events o idx len records.
Proof.
  induction records as [| r rest IH]; intros idx len; simpl;
    [reflexivity | rewrite IH; reflexivity].
Qed.

Lemma records_perf_with_buffer (o : JsonStream) (b : option string)
  (records : list string) :
  records_perf (with_buffer o b) records = records_perf o records.
Proof.
  induction records as [| r rest IH]; simpl;
    [reflexivity | rewrite IH; reflexivity].
Qed.

Lemma on_data_run (chunk : string) (w : World) :
  on_data chunk w = (Normal tt, after_data chunk w).
Proof.
  destruct w as [o ev pc ou].
  unfold on_data, after_data, data_events, data_records, data_buffer,
    with_buffer, bind, get_self, when; simpl.
  destruct (buffer_truthy o) eqn:Hb; simpl;
    destruct (negb (ends_on_EOL (incoming o chunk) (EOL o))) eqn:He; simpl.
  - destruct (Js.pop (Js.split (incoming o chunk) (EOL o))) as [front lst].
    unfold bind, assign_buffer, ret; simpl.
    rewrite for_records_run; simpl.
    change (mkJsonStream lst (perf o) (preserveWhitespace o)
              (maxLineLength o) (EOL o) (separateStreams o))
      with (with_buffer o lst).
    rewrite records_events_with_buffer, records_perf_with_buffer.
    reflexivity.
  - unfold assign_buffer, ret; simpl. rewrite for_records_run; simpl.
    change (mkJsonStream (Some "") (perf o) (preserveWhitespace o)
              (maxLineLength o) (EOL o) (separateStreams o))
      with (with_buffer o (Some "")).
    rewrite records_events_with_buffer, records_perf_with_buffer.
    reflexivity.
  - unfold ret at 1; simpl.
    destruct (Js.pop (Js.split (incoming o chunk) (EOL o))) as [front lst].
    unfold bind, assign_buffer, ret; simpl.
    rewrite for_records_run; simpl.
    change (mkJsonStream lst (perf o) (preserveWhitespace o)
              (maxLineLength o) (EOL o) (separateStreams o))
      with (with_buffer o lst).
    rewrite records_events_with_buffer, records_perf_with_buffer.
    reflexivity.
  - unfold ret; simpl. rewrite for_records_run. destruct o; reflexivity.
Qed.

(** ** Facts about strings and [split] *)

Lemma append_nil_r (s : string) : s ++ "" = s.
Proof. induction s as [| a s IH]; simpl; [| rewrite IH]; reflexivity. Qed.

Lemma append_assoc (a b c : string) : (a ++ b) ++ c = a ++ (b ++ c).
Proof. induction a as [| x a IH]; simpl; [| rewrite IH]; reflexivity. Qed.

Lemma length_append (a b : string) :
  String.length (a ++ b) = String.length a + String.length b.
Proof. induction a as [| x a IH]; simpl; [| rewrite IH]; reflexivity. Qed.

Lemma drop_length_append (a b : string) :
  Js.drop (String.length a) (a ++ b) = b.
Proof. induction a as [| x a IH]; simpl; [destruct b |]; auto. Qed.

Lemma take_length_append (a b : string) :
  Js.take (String.length a) (a ++ b) = a.
Proof.
  induction a as [| x a IH]; simpl; [destruct b | rewrite IH]; reflexivity.
Qed.

Lemma drop_all (s : string) : Js.drop (String.length s) s = "".
Proof. induction s as [| x s IH]; simpl; auto. Qed.

Lemma drop_append_le (n : nat) (a b : string) :
  n <= String.length a -> Js.drop n (a ++ b) = Js.drop n a ++ b.
Proof.
  revert a; induction n as [| n IH]; intros a Hn; [reflexivity |].
  destruct a as [| x a]; simpl in *; [lia | apply IH; lia].
Qed.

Lemma length_drop (n : nat) (s : string) :
  String.length (Js.drop n s) = String.length s - n.
Proof.
  revert s; induction n as [| n IH]; intros s; simpl; [lia |].
  destruct s as [| x s]; simpl; auto.
Qed.

(** Every string is empty or ends with some code unit. *)
Lemma string_snoc (s : string) :
  s = "" \/ exists p a, s = p ++ String a "".
Proof.
  induction s as [| x s IH]; [left; reflexivity | right].
  destruct IH as [-> | (p & a & ->)].
  - exists "", x; reflexivity.
  - exists (String x p), a; reflexivity.
Qed.

Lemma has_char_append (c : ascii) (a b : string) :
  Js.has_char c (a ++ b) = Js.has_char c a || Js.has_char c b.
Proof.
  induction a as [| x a IH]; simpl; [reflexivity |].
  rewrite IH, orb_assoc; reflexivity.
Qed.

Lemma last_app_nonempty {A} (l1 l2 : list A) (d : A) :
  l2 <> [] -> last (l1 ++ l2)%list d = last l2 d.
Proof.
  intros H. destruct (exists_last H) as (front & x & ->).
  rewrite app_assoc, !last_last. reflexivity.
Qed.

(** *** Splitting on a single code unit *)

Lemma split_eol1 (c : ascii) (s : string) :
  Js.split s (eol1 c) = Js.split_scan (eol1 c) 0 s.
Proof. reflexivity. Qed.

Lemma split_scan_cons (c a : ascii) (s : string) :
  Js.split_scan (eol1 c) 0 (String a s) =
  if Ascii.eqb a c then "" :: Js.split_scan (eol1 c) 0 s
  else Js.cons_head a (Js.split_scan (eol1 c) 0 s).
Proof.
  simpl. destruct (ascii_dec c a) as [-> | Hne].
  - rewrite Ascii.eqb_refl. destruct s; reflexivity.
  - destruct (Ascii.eqb_spec a c) as [-> | _]; [congruence | reflexivity].
Qed.

Lemma split_scan_nonempty (c : ascii) (s : string) :
  Js.split_scan (eol1 c) 0 s <> [].
Proof.
  destruct s as [| a s]; [discriminate |].
  rewrite split_scan_cons. destruct (Ascii.eqb a c); [discriminate |].
  destruct (Js.split_scan (eol1 c) 0 s); discriminate.
Qed.

Lemma split_scan_free (c : ascii) (s : string) :
  Js.has_char c s = false -> Js.split_scan (eol1 c) 0 s = [s].
Proof.
  induction s as [| a s IH]; [reflexivity |]. intros H.
  rewrite split_scan_cons. simpl in H. apply orb_false_iff in H as [Ha Hs].
  rewrite Ha, (IH Hs). reflexivity.
Qed.

Lemma split_scan_append (c : ascii) (x y : string) :
  Js.split_scan (eol1 c) 0 (x ++ y) =
  (removelast (Js.split_scan (eol1 c) 0 x)
   ++ Js.split_scan (eol1 c) 0 (last (Js.split_scan (eol1 c) 0 x) "" ++ y))%list.
Proof.
  induction x as [| a x IH]; [reflexivity |].
  change (String a x ++ y) with (String a (x ++ y)).
  rewrite !split_scan_cons.
  pose proof (split_scan_nonempty c x) as Hne.
  destruct (Ascii.eqb a c) eqn:E.
  - rewrite IH. destruct (Js.split_scan (eol1 c) 0 x) as [| h t];
      [congruence | reflexivity].
  - rewrite IH. destruct (Js.split_scan (eol1 c) 0 x) as [| h t];
      [congruence |].
    destruct t as [| h' t].
    + cbn [removelast last Js.cons_head app].
      change (String a h ++ y) with (String a (h ++ y)).
      rewrite split_scan_cons, E. reflexivity.
    + reflexivity.
Qed.

Lemma split_scan_line (c : ascii) (l y : string) :
  Js.has_char c l = false ->
  Js.split_scan (eol1 c) 0 (l ++ String c y)
  = l :: Js.split_scan (eol1 c) 0 y.
Proof.
  induction l as [| a l IH]; intros H.
  - simpl append. rewrite split_scan_cons, Ascii.eqb_refl. reflexivity.
  - simpl in H. apply orb_false_iff in H as [Ha Hl].
    change (String a l ++ String c y) with (String a (l ++ String c y)).
    rewrite split_scan_cons, Ha, (IH Hl). reflexivity.
Qed.

Lemma split_scan_segments_free (c : ascii) (s : string) :
  Forall (fun r => Js.has_char c r = false) (Js.split_scan (eol1 c) 0 s).
Proof.
  induction s as [| a s IH]; [repeat constructor |].
  rewrite split_scan_cons. destruct (Ascii.eqb a c) eqn:E.
  - constructor; [reflexivity | exact IH].
  - destruct (Js.split_scan (eol1 c) 0 s) as [| h t]; simpl.
    + repeat constructor. simpl. rewrite E. reflexivity.
    + inversion IH; subst. constructor; [| assumption].
      simpl. rewrite E. assumption.
Qed.

Lemma split_scan_last_free (c : ascii) (s : string) :
  Js.has_char c (last (Js.split_scan (eol1 c) 0 s) "") = false.
Proof.
  pose proof (split_scan_segments_free c s) as H.
  pose proof (split_scan_nonempty c s) as Hne.
  destruct (exists_last Hne) as (front & l & Heq). rewrite Heq in *.
  rewrite last_last. apply Forall_app in H as [_ H]. inversion H; assumption.
Qed.

Lemma split_scan_removelast_free (c : ascii) (s : string) :
  Forall (fun r => Js.has_char c r = false)
         (removelast (Js.split_scan (eol1 c) 0 s)).
Proof.
  pose proof (split_scan_segments_free c s) as H.
  pose proof (split_scan_nonempty c s) as Hne.
  destruct (exists_last Hne) as (front & l & Heq). rewrite Heq in *.
  rewrite removelast_last. apply Forall_app in H as [H _]. exact H.
Qed.

(** A text that ends with the delimiter splits into the segments of the
    text before it, followed by an empty segment. *)
Lemma split_scan_terminated (c : ascii) (p : string) :
  Js.split_scan (eol1 c) 0 (p ++ eol1 c)
  = (Js.split_scan (eol1 c) 0 p ++ [""])%list.
Proof.
  rewrite split_scan_append.
  pose proof (split_scan_line c _ "" (split_scan_last_free c p)) as H.
  change (String c "") with (eol1 c) in H. rewrite H.
  change (Js.split_scan (eol1 c) 0 "") with [""].
  rewrite (app_removelast_last "" (split_scan_nonempty c p)) at 3.
  rewrite <- app_assoc. reflexivity.
Qed.

Lemma split_scan_last_length (c : ascii) (s : string) :
  String.length (last (Js.split_scan (eol1 c) 0 s) "") <= String.length s.
Proof.
  induction s as [| a s IH]; [simpl; lia |].
  rewrite split_scan_cons.
  pose proof (split_scan_nonempty c s) as Hne.
  destruct (Js.split_scan (eol1 c) 0 s) as [| h t]; [congruence |].
  cbn [String.length].
  destruct (Ascii.eqb a c).
  - change (last ("" :: h :: t) "") with (last (h :: t) ""). lia.
  - destruct t as [| h' t].
    + cbn [Js.cons_head last String.length] in *. lia.
    + change (last (Js.cons_head a (h :: h' :: t)) "")
        with (last (h :: h' :: t) "").
      lia.
Qed.

(** *** The delimiter test *)

Lemma ends_with_snoc (p : string) (a c : ascii) :
  Js.ends_with (p ++ String a "") (eol1 c) = Ascii.eqb a c.
Proof.
  unfold Js.ends_with, Js.substring_from, eol1.
  rewrite length_append. simpl String.length.
  replace (Z.to_nat (Z.of_nat (String.length p + 1) - Z.of_nat 1))
    with (String.length p) by lia.
  rewrite drop_length_append. simpl.
  destruct (Ascii.eqb a c); reflexivity.
Qed.

Lemma ends_with_empty (c : ascii) : Js.ends_with "" (eol1 c) = false.
Proof. reflexivity. Qed.

Lemma ends_with_true (c : ascii) (s : string) :
  Js.ends_with s (eol1 c) = true -> exists p, s = p ++ eol1 c.
Proof.
  destruct (string_snoc s) as [-> | (p & a & ->)]; [discriminate |].
  rewrite ends_with_snoc. intros H. apply Ascii.eqb_eq in H as ->.
  exists p; reflexivity.
Qed.

Lemma ends_with_false_last (c : ascii) (s : string) :
  Js.ends_with s (eol1 c) = false ->
  s = "" \/ last (Js.split_scan (eol1 c) 0 s) "" <> "".
Proof.
  destruct (string_snoc s) as [-> | (p & a & ->)]; [left; reflexivity |].
  rewrite ends_with_snoc. intros H. right.
  rewrite split_scan_append.
  rewrite last_app_nonempty by apply split_scan_nonempty.
  rewrite split_scan_free.
  - simpl. destruct (last (Js.split_scan (eol1 c) 0 p) ""); discriminate.
  - rewrite has_char_append, split_scan_last_free. simpl. rewrite H.
    reflexivity.
Qed.

Lemma chomp_line (c : ascii) (r : string) :
  Js.chomp (eol1 c) (r ++ eol1 c) = r.
Proof.
  unfold Js.chomp. unfold eol1 at 1 3. rewrite ends_with_snoc, Ascii.eqb_refl.
  rewrite length_append. simpl String.length.
  replace (String.length r + 1 - 1) with (String.length r) by lia.
  apply take_length_append.
Qed.

Lemma chomp_free (c : ascii) (r : string) :
  Js.has_char c r = false -> Js.chomp (eol1 c) r = r.
Proof.
  intros H. unfold Js.chomp.
  destruct (Js.ends_with r (eol1 c)) eqn:E; [| reflexivity].
  apply ends_with_true in E as (p & ->).
  rewrite has_char_append in H. simpl in H.
  rewrite Ascii.eqb_refl, orb_true_r in H. discriminate.
Qed.

(** ** One invocation of the handler, for a delimiter of one code unit *)

Lemma pending_not_truthy (o : JsonStream) :
  buffer_truthy o = false -> pending o = "".
Proof.
  unfold buffer_truthy, pending. destruct (buffer o) as [b |]; [| reflexivity].
  destruct (String.eqb_spec b ""); [auto | discriminate].
Qed.

Lemma data_records_eol1 (o : JsonStream) (c : ascii) (chunk : string) :
  EOL o = eol1 c ->
  data_records o chunk =
  if Js.ends_with (incoming o chunk) (eol1 c)
  then Js.split_scan (eol1 c) 0 (incoming o chunk)
  else removelast (Js.split_scan (eol1 c) 0 (incoming o chunk)).
Proof.
  intros HE. unfold data_records. rewrite HE, split_eol1.
  change (ends_on_EOL (incoming o chunk) (eol1 c))
    with (Js.ends_with (incoming o chunk) (eol1 c)).
  destruct (Js.ends_with (incoming o chunk) (eol1 c)); [reflexivity |].
  pose proof (split_scan_nonempty c (incoming o chunk)) as Hne.
  simpl negb. cbv iota. unfold Js.pop.
  destruct (Js.split_scan (eol1 c) 0 (incoming o chunk));
    [congruence | reflexivity].
Qed.

(** The buffer left by the handler is the last segment of the split. *)
Lemma data_buffer_eol1 (o : JsonStream) (c : ascii) (chunk : string) :
  EOL o = eol1 c ->
  pending (with_buffer o (data_buffer o chunk))
  = last (Js.split_scan (eol1 c) 0 (incoming o chunk)) "".
Proof.
  intros HE. unfold data_buffer. rewrite HE, split_eol1.
  change (ends_on_EOL (incoming o chunk) (eol1 c))
    with (Js.ends_with (incoming o chunk) (eol1 c)).
  destruct (Js.ends_with (incoming o chunk) (eol1 c)) eqn:E.
  - apply ends_with_true in E as (p & ->).
    rewrite split_scan_terminated, last_last. simpl negb. cbv iota.
    destruct (buffer_truthy o) eqn:Hb; [reflexivity |].
    unfold pending at 1. simpl buffer. apply (pending_not_truthy o Hb).
  - pose proof (split_scan_nonempty c (incoming o chunk)) as Hne.
    simpl negb. cbv iota. unfold Js.pop.
    destruct (Js.split_scan (eol1 c) 0 (incoming o chunk));
      [congruence | reflexivity].
Qed.

Lemma line_events_empty (o : JsonStream) : line_events o "" = [].
Proof.
  unfold line_events. simpl. destruct (preserveWhitespace o); reflexivity.
Qed.

Lemma strip_parse_events (eol record : string) :
  map (strip_event eol) (parse_events record) = parse_events record.
Proof.
  unfold parse_events. destruct (JSON_parse record) as [v | e];
    [destruct (truthy v) |]; reflexivity.
Qed.

Lemma strip_record_events (o : JsonStream) (c : ascii) (idx len : nat)
  (r : string) :
  EOL o = eol1 c -> preserveWhitespace o = false ->
  Js.has_char c r = false ->
  map (strip_event (eol1 c)) (record_events o idx len r) = line_events o r.
Proof.
  intros HE Hpw Hr. unfold record_events, line_events.
  destruct (Js.match_record r); [apply strip_parse_events |].
  unfold text_events. rewrite Hpw, HE. simpl orb.
  destruct (Js.match_nonspace r) eqn:Hns; [| reflexivity].
  assert (Hne : (r =? "") = false) by (destruct r; [discriminate | reflexivity]).
  rewrite Hne.
  destruct (Nat.ltb idx (len - 1)).
  - destruct r as [| a r]; [discriminate |].
    change ((String a r ++ eol1 c =? "")) with false.
    cbn [map strip_event]. rewrite chomp_line. reflexivity.
  - rewrite append_nil_r, Hne. cbn [map strip_event].
    rewrite (chomp_free c r Hr). reflexivity.
Qed.

Lemma strip_records_events (o : JsonStream) (c : ascii)
  (records : list string) :
  EOL o = eol1 c -> preserveWhitespace o = false ->
  Forall (fun r => Js.has_char c r = false) records ->
  forall idx len,
    map (strip_event (eol1 c)) (records_events o idx len records)
    = flat_map (line_events o) records.
Proof.
  intros HE Hpw HF. induction HF as [| r rest Hr _ IH]; intros idx len;
    [reflexivity |].
  simpl. rewrite map_app, IH, (strip_record_events o c idx len r HE Hpw Hr).
  reflexivity.
Qed.

(** Up to the delimiter of text payloads, the events of an invocation are
    those of the complete lines of the text it splits. *)
Lemma data_events_stripped (o : JsonStream) (c : ascii) (chunk : string) :
  EOL o = eol1 c -> preserveWhitespace o = false ->
  map (strip_event (eol1 c)) (data_events o chunk)
  = flat_map (line_events o)
      (removelast (Js.split_scan (eol1 c) 0 (incoming o chunk))).
Proof.
  intros HE Hpw. unfold data_events. rewrite (data_records_eol1 o c chunk HE).
  destruct (Js.ends_with (incoming o chunk) (eol1 c)) eqn:E.
  - rewrite (strip_records_events o c _ HE Hpw)
      by apply split_scan_segments_free.
    apply ends_with_true in E as (p & ->).
    rewrite split_scan_terminated, removelast_last, flat_map_app.
    simpl. rewrite line_events_empty, !app_nil_r. reflexivity.
  - apply (strip_records_events o c _ HE Hpw).
    apply split_scan_removelast_free.
Qed.

(** ** Sequences of chunks *)

Lemma exec_on_data (chunk : string) (w : World) :
  exec (on_data chunk) w = after_data chunk w.
Proof. unfold exec. rewrite on_data_run. reflexivity. Qed.

Lemma concat_cons (x : string) (xs : list string) :
  String.concat "" (x :: xs) = x ++ String.concat "" xs.
Proof. destruct xs; simpl; [rewrite append_nil_r |]; reflexivity. Qed.

Lemma incoming_whole (o : JsonStream) (chunk : string) :
  (Z.of_nat (String.length (pending o ++ chunk)) <= maxLineLength o)%Z ->
  incoming o chunk = pending o ++ chunk.
Proof.
  intros H. unfold incoming. destruct (buffer_truthy o) eqn:Hb.
  - destruct (Z.gtb_spec (Z.of_nat (String.length (pending o ++ chunk)))
                         (maxLineLength o)); [lia | reflexivity].
  - rewrite (pending_not_truthy o Hb). reflexivity.
Qed.

Lemma line_events_with_buffer (o : JsonStream) (b : option string)
  (line : string) :
  line_events (with_buffer o b) line = line_events o line.
Proof. reflexivity. Qed.

Lemma flat_map_line_events_with_buffer (o : JsonStream) (b : option string)
  (lines : list string) :
  flat_map (line_events (with_buffer o b)) lines
  = flat_map (line_events o) lines.
Proof. apply flat_map_ext. intros; apply line_events_with_buffer. Qed.

(** Whatever the chunking, as long as nothing is cut off: up to the
    delimiter of text payloads the events are those of the complete lines of
    the whole text, and the last segment of the whole text stays pending. *)
Lemma feed_stripped (c : ascii) (chunks : list string) :
  forall w : World,
    EOL (self w) = eol1 c ->
    preserveWhitespace (self w) = false ->
    Js.has_char c (pending (self w)) = false ->
    (Z.of_nat (String.length (pending (self w) ++ String.concat "" chunks))
     <= maxLineLength (self w))%Z ->
    let segs :=
      Js.split_scan (eol1 c) 0 (pending (self w) ++ String.concat "" chunks) in
    map (strip_event (eol1 c)) (events (feed chunks w))
    = (map (strip_event (eol1 c)) (events w)
       ++ flat_map (line_events (self w)) (removelast segs))%list
    /\ pending (self (feed chunks w)) = last segs "".
Proof.
  induction chunks as [| c1 rest IH]; intros w HE Hpw HP Hmax segs.
  - subst segs. simpl String.concat. rewrite append_nil_r.
    rewrite (split_scan_free c _ HP). simpl. rewrite app_nil_r. auto.
  - subst segs. rewrite concat_cons in *.
    rewrite !length_append in Hmax.
    simpl feed. rewrite exec_on_data.
    set (o := self w) in *.
    assert (Hin : incoming o c1 = pending o ++ c1).
    { apply incoming_whole. rewrite length_append. lia. }
    pose proof (data_buffer_eol1 o c c1 HE) as HP1. rewrite Hin in HP1.
    pose proof (split_scan_last_length c (pending o ++ c1)) as Hlen.
    rewrite length_append in Hlen.
    specialize (IH (after_data c1 w)).
    unfold after_data in IH. fold o in IH. cbn [self events] in IH.
    rewrite HP1 in IH.
    destruct IH as [IHe IHp].
    + exact HE.
    + exact Hpw.
    + apply split_scan_last_free.
    + cbn [with_buffer maxLineLength]. rewrite length_append. lia.
    + unfold after_data. fold o. rewrite IHe, IHp.
      rewrite map_app, (data_events_stripped o c c1 HE Hpw), Hin.
      rewrite flat_map_line_events_with_buffer.
      rewrite <- append_assoc.
      rewrite (split_scan_append c (pending o ++ c1) (String.concat "" rest)).
      rewrite removelast_app by apply split_scan_nonempty.
      rewrite last_app_nonempty by apply split_scan_nonempty.
      rewrite flat_map_app, <- app_assoc. auto.
Qed.

(** ** Facts that hold for every delimiter *)

Lemma split_scan_nonempty_any (sep : string) (s : string) :
  forall k, Js.split_scan sep k s <> [].
Proof.
  induction s as [| a s IH]; intros k; [discriminate |].
  cbn [Js.split_scan]. destruct k as [| k]; [| apply IH].
  destruct (prefix sep (String a s)); [discriminate |].
  destruct (Js.split_scan sep 0 s); discriminate.
Qed.

Lemma split_scan_segment_length (sep : string) (s : string) :
  forall k,
    Forall (fun r => String.length r <= String.length s)
           (Js.split_scan sep k s).
Proof.
  induction s as [| a s IH]; intros k;
    [constructor; [simpl; lia | constructor] |].
  assert (Hw : forall k',
             Forall (fun r => String.length r <= String.length (String a s))
                    (Js.split_scan sep k' s)).
  { intros k'. eapply Forall_impl; [| apply IH]. simpl. intros; lia. }
  cbn [Js.split_scan]. destruct k as [| k]; [| apply Hw].
  destruct (prefix sep (String a s)).
  - constructor; [simpl; lia | apply Hw].
  - specialize (IH 0). destruct (Js.split_scan sep 0 s) as [| h t]; simpl.
    + constructor; [simpl; lia | constructor].
    + inversion IH; subst. constructor; [simpl; lia |].
      eapply Forall_impl; [| eassumption]. simpl. intros; lia.
Qed.

Lemma code_units_segment_length (s : string) :
  Forall (fun r => String.length r <= String.length s) (Js.code_units s).
Proof.
  induction s as [| a s IH]; [constructor |].
  simpl. constructor; [simpl; lia |].
  eapply Forall_impl; [| exact IH]. simpl. intros; lia.
Qed.

Lemma split_segment_length (s sep : string) :
  Forall (fun r => String.length r <= String.length s) (Js.split s sep).
Proof.
  unfold Js.split. destruct sep;
    [apply code_units_segment_length | apply split_scan_segment_length].
Qed.

Lemma pop_length (l : list string) (n : nat) :
  Forall (fun r => String.length r <= n) l ->
  match snd (Js.pop l) with
  | Some r => String.length r <= n
  | None => True
  end.
Proof.
  intros H. destruct l as [| x l]; [exact I |].
  unfold Js.pop. cbn [snd].
  assert (Hne : x :: l <> []) by discriminate.
  destruct (exists_last Hne) as (front & y & Heq). rewrite Heq in *.
  rewrite last_last. apply Forall_app in H as [_ H]. inversion H; assumption.
Qed.

Lemma take_drop (n : nat) (s : string) : Js.take n s ++ Js.drop n s = s.
Proof.
  revert s; induction n as [| n IH]; intros s; [reflexivity |].
  destruct s as [| a s]; simpl; [| rewrite IH]; reflexivity.
Qed.

Lemma ends_with_append (p e : string) : Js.ends_with (p ++ e) e = true.
Proof.
  unfold Js.ends_with, Js.substring_from. rewrite length_append.
  replace (Z.to_nat (Z.of_nat (String.length p + String.length e)
                     - Z.of_nat (String.length e)))
    with (String.length p) by lia.
  rewrite drop_length_append. apply String.eqb_refl.
Qed.

Lemma ends_with_inv (s e : string) :
  Js.ends_with s e = true -> exists p, s = p ++ e.
Proof.
  unfold Js.ends_with, Js.substring_from. intros H.
  apply String.eqb_eq in H.
  pose proof (take_drop
                (Z.to_nat (Z.of_nat (String.length s)
                           - Z.of_nat (String.length e))) s) as T.
  rewrite H in T. eexists. symmetry. exact T.
Qed.

(** A suffix of the second part of a text is a suffix of the text, and a
    suffix of the text no longer than the second part is a suffix of it. *)
Lemma append_suffix_inv (a b r e : string) :
  a ++ b = r ++ e -> String.length e <= String.length b ->
  exists r', b = r' ++ e.
Proof.
  revert r; induction a as [| x a IH]; intros r H Hlen.
  - exists r; exact H.
  - destruct r as [| y r].
    + simpl in H. rewrite <- H in Hlen. simpl in Hlen.
      rewrite length_append in Hlen. lia.
    + simpl in H. inversion H as [[Hx Hr]]. apply (IH r Hr Hlen).
Qed.

Lemma drop_as_suffix (n : nat) (s : string) :
  exists p, s = p ++ Js.drop n s.
Proof. exists (Js.take n s). symmetry; apply take_drop. Qed.

Lemma prefix_refl (s : string) : prefix s s = true.
Proof.
  induction s as [| a s IH]; [reflexivity |].
  simpl. destruct (ascii_dec a a); [exact IH | congruence].
Qed.

Lemma occurs_in_suffix (sep p : string) : Js.occurs_in sep (p ++ sep) = true.
Proof.
  induction p as [| x p IH].
  - simpl append. destruct sep as [| a sep]; [reflexivity |].
    cbn [Js.occurs_in]. rewrite prefix_refl. reflexivity.
  - change (String x p ++ sep) with (String x (p ++ sep)).
    cbn [Js.occurs_in]. rewrite IH. apply orb_true_r.
Qed.

Lemma split_scan_no_occurrence (sep s : string) :
  Js.occurs_in sep s = false -> Js.split_scan sep 0 s = [s].
Proof.
  induction s as [| a s IH]; intros H; [reflexivity |].
  cbn [Js.occurs_in] in H. apply orb_false_iff in H as [Hp Hs].
  cbn [Js.split_scan]. rewrite Hp, (IH Hs). reflexivity.
Qed.

Lemma ends_with_no_occurrence (sep s : string) :
  Js.occurs_in sep s = false -> Js.ends_with s sep = false.
Proof.
  intros H. destruct (Js.ends_with s sep) eqn:E; [| reflexivity].
  apply ends_with_inv in E as (p & ->).
  rewrite occurs_in_suffix in H. discriminate.
Qed.

Lemma occurs_in_empty_sep (s : string) : Js.occurs_in "" s = true.
Proof. destruct s; reflexivity. Qed.

(** ** The text the handler splits *)

Lemma incoming_form (o : JsonStream) (chunk : string) :
  exists k p, incoming o chunk = Js.drop k (p ++ chunk).
Proof.
  unfold incoming. destruct (buffer_truthy o).
  - destruct (Z.of_nat (String.length (pending o ++ chunk))
              >? maxLineLength o)%Z.
    + eexists _, (pending o). reflexivity.
    + exists 0, (pending o). reflexivity.
  - exists 0, "". reflexivity.
Qed.

Lemma incoming_bounded (o : JsonStream) (chunk : string) :
  buffer_truthy o = true ->
  (Z.of_nat (String.length (incoming o chunk))
   <= Z.max 0 (maxLineLength o))%Z.
Proof.
  intros Hb. unfold incoming. rewrite Hb.
  destruct (Z.gtb_spec (Z.of_nat (String.length (pending o ++ chunk)))
                       (maxLineLength o)) as [Hgt | Hle]; [| lia].
  unfold Js.substring_from. rewrite length_drop. lia.
Qed.

(** A chunk that ends on the delimiter makes the text end on it, unless
    the text is cut down to less than a delimiter. *)
Lemma incoming_ends (o : JsonStream) (chunk : string) :
  Js.ends_with chunk (EOL o) = true ->
  buffer_truthy o = false
  \/ (Z.of_nat (String.length (EOL o)) <= maxLineLength o)%Z ->
  Js.ends_with (incoming o chunk) (EOL o) = true.
Proof.
  intros He Hc. unfold incoming.
  destruct (buffer_truthy o) eqn:Hb; [| exact He].
  destruct Hc as [Hc | Hc]; [discriminate |].
  apply ends_with_inv in He as (p & ->).
  rewrite <- append_assoc.
  destruct (Z.gtb_spec
              (Z.of_nat (String.length ((pending o ++ p) ++ EOL o)))
              (maxLineLength o)) as [Hgt | Hle]; [| apply ends_with_append].
  unfold Js.substring_from. rewrite drop_append_le; [apply ends_with_append |].
  rewrite length_append in *. lia.
Qed.

(** A chunk at least as long as the delimiter that does not end on it
    keeps the text from ending on it. *)
Lemma incoming_not_ends (o : JsonStream) (chunk : string) :
  Js.ends_with chunk (EOL o) = false ->
  String.length (EOL o) <= String.length chunk ->
  Js.ends_with (incoming o chunk) (EOL o) = false.
Proof.
  intros He Hlen.
  destruct (Js.ends_with (incoming o chunk) (EOL o)) eqn:E; [| reflexivity].
  apply ends_with_inv in E as (q & Hq).
  destruct (incoming_form o chunk) as (k & p & Hin).
  destruct (drop_as_suffix k (p ++ chunk)) as (t & Ht).
  rewrite <- Hin, Hq, <- append_assoc in Ht.
  destruct (append_suffix_inv _ _ _ _ Ht Hlen) as (r & ->).
  rewrite ends_with_append in He. discriminate.
Qed.

Lemma ends_with_empty_suffix (s : string) : Js.ends_with s "" = true.
Proof.
  unfold Js.ends_with, Js.substring_from. simpl String.length.
  replace (Z.to_nat (Z.of_nat (String.length s) - Z.of_nat 0))
    with (String.length s) by lia.
  rewrite drop_all. reflexivity.
Qed.

Lemma split_nonempty_if_not_ends (s sep : string) :
  Js.ends_with s sep = false -> Js.split s sep <> [].
Proof.
  intros H. destruct sep as [| a sep].
  - rewrite ends_with_empty_suffix in H. discriminate.
  - apply split_scan_nonempty_any.
Qed.

(** What the handler leaves when the text does not end on the delimiter:
    the last segment in the buffer, the segments before it to the loop. *)
Lemma data_unterminated (o : JsonStream) (chunk : string) :
  Js.ends_with (incoming o chunk) (EOL o) = false ->
  data_buffer o chunk
  = Some (last (Js.split (incoming o chunk) (EOL o)) "")
  /\ data_records o chunk
     = removelast (Js.split (incoming o chunk) (EOL o)).
Proof.
  intros H. unfold data_buffer, data_records.
  change (ends_on_EOL (incoming o chunk) (EOL o))
    with (Js.ends_with (incoming o chunk) (EOL o)).
  rewrite H. simpl negb. cbv iota.
  pose proof (split_nonempty_if_not_ends _ _ H) as Hne.
  unfold Js.pop. destruct (Js.split (incoming o chunk) (EOL o));
    [congruence | split; reflexivity].
Qed.

(** What it leaves when the text ends on the delimiter: nothing pending. *)
Lemma data_terminated (o : JsonStream) (chunk : string) :
  Js.ends_with (incoming o chunk) (EOL o) = true ->
  pending (with_buffer o (data_buffer o chunk)) = ""
  /\ data_records o chunk = Js.split (incoming o chunk) (EOL o).
Proof.
  intros H. unfold data_buffer, data_records.
  change (ends_on_EOL (incoming o chunk) (EOL o))
    with (Js.ends_with (incoming o chunk) (EOL o)).
  rewrite H. simpl negb. cbv iota. split; [| reflexivity].
  destruct (buffer_truthy o) eqn:Hb; [reflexivity |].
  apply (pending_not_truthy o Hb).
Qed.

Lemma data_buffer_length (o : JsonStream) (chunk : string) :
  String.length (pending (with_buffer o (data_buffer o chunk)))
  <= String.length (incoming o chunk).
Proof.
  destruct (Js.ends_with (incoming o chunk) (EOL o)) eqn:E.
  - destruct (data_terminated o chunk E) as [-> _]. simpl; lia.
  - destruct (data_unterminated o chunk E) as [-> _].
    pose proof (pop_length _ _ (split_segment_length (incoming o chunk) (EOL o)))
      as Hp.
    pose proof (split_nonempty_if_not_ends _ _ E) as Hne.
    unfold Js.pop in Hp.
    destruct (Js.split (incoming o chunk) (EOL o)) eqn:Es; [congruence |].
    exact Hp.
Qed.

(** ** Chunks that make up complete lines *)

Lemma split_scan_unlines (c : ascii) (lines : list string) (tail : string) :
  Forall (fun l => Js.has_char c l = false) lines ->
  Js.has_char c tail = false ->
  Js.split_scan (eol1 c) 0 (Js.unlines (eol1 c) lines tail)
  = (lines ++ [tail])%list.
Proof.
  intros HF Ht. induction HF as [| l rest Hl _ IH].
  - simpl. apply split_scan_free. exact Ht.
  - cbn [Js.unlines]. unfold eol1 at 2. cbn [append].
    rewrite (split_scan_line c l _ Hl), IH. reflexivity.
Qed.

(** Chunks whose concatenation is the lines [lines], each followed by the
    delimiter, fed to a reader with nothing pending: the events are those
    of the lines in order, up to the delimiter of text payloads, and nothing
    stays pending. *)
Lemma feed_complete_lines (c : ascii) (lines chunks : list string)
  (w : World) :
  EOL (self w) = eol1 c ->
  preserveWhitespace (self w) = false ->
  pending (self w) = "" ->
  Forall (fun l => Js.has_char c l = false) lines ->
  String.concat "" chunks = Js.unlines (eol1 c) lines "" ->
  (Z.of_nat (String.length (String.concat "" chunks))
   <= maxLineLength (self w))%Z ->
  map (strip_event (eol1 c)) (events (feed chunks w))
  = (map (strip_event (eol1 c)) (events w)
     ++ flat_map (line_events (self w)) lines)%list
  /\ pending (self (feed chunks w)) = "".
Proof.
  intros HE Hpw HP HF Hcat Hmax.
  destruct (feed_stripped c chunks w HE Hpw) as [He Hp].
  - rewrite HP. reflexivity.
  - rewrite HP. exact Hmax.
  - rewrite HP in He, Hp. cbn [append] in He, Hp.
    rewrite Hcat, (split_scan_unlines c lines "" HF eq_refl) in He, Hp.
    rewrite removelast_last in He. rewrite last_last in Hp. auto.
Qed.

(** ** The specified properties, for every JSON codec and output handle *)

(** C4 (amended).  A chunk at least as long as the delimiter that does not
    end with it leaves the trailing segment of the text (the chunk after
    the previous buffer) in the buffer, and the loop runs over the segments
    before it only.  A chunk that ends on the delimiter leaves the pending
    buffer empty, provided the buffer was empty on arrival or
    [maxLineLength] is at least the length of the delimiter. *)
Theorem partial_tail_retention (w : World) (chunk : string) :
  let o := self w in
  let segments := Js.split (incoming o chunk) (EOL o) in
  let w' := exec (on_data chunk) w in
  (Js.ends_with chunk (EOL o) = false ->
   String.length (EOL o) <= String.length chunk ->
   buffer (self w') = Some (last segments "")
   /\ events w'
      = (events w
         ++ records_events o 0 (List.length (removelast segments))
              (removelast segments))%list)
  /\ (Js.ends_with chunk (EOL o) = true ->
      buffer_truthy o = false
      \/ (Z.of_nat (String.length (EOL o)) <= maxLineLength o)%Z ->
      pending (self w') = "").
Proof.
  intros o segments w'. subst w' segments. rewrite exec_on_data.
  unfold after_data. fold o. cbn [self events buffer with_buffer]. split.
  - intros He Hlen.
    pose proof (incoming_not_ends o chunk He Hlen) as Hd.
    destruct (data_unterminated o chunk Hd) as [Hbuf Hrec].
    unfold data_events. rewrite Hbuf, Hrec. auto.
  - intros He Hc.
    pose proof (incoming_ends o chunk He Hc) as Hd.
    apply (data_terminated o chunk Hd).
Qed.

(** C7 (amended).  End of input after a chunk, at least as long as the
    delimiter, that does not end with the delimiter: the handler of the end
    notification returns normally and appends exactly one end event; the
    events before it are those of the segments before the unterminated
    one, which is still in the buffer and for which no event is emitted. *)
Theorem end_drops_partial_line (w : World) (chunk : string) :
  let o := self w in
  let segments := Js.split (incoming o chunk) (EOL o) in
  let w1 := exec (on_data chunk) w in
  Js.ends_with chunk (EOL o) = false ->
  String.length (EOL o) <= String.length chunk ->
  on_end w1
  = (Normal tt,
     mkWorld (self w1) (events w1 ++ [EvEnd])%list (perf_calls w1) (out w1))
  /\ events (exec on_end w1)
     = (events w
        ++ records_events o 0 (List.length (removelast segments))
             (removelast segments)
        ++ [EvEnd])%list
  /\ buffer (self (exec on_end w1)) = Some (last segments "").
Proof.
  intros o segments w1 He Hlen. subst w1 segments.
  split; [reflexivity |].
  unfold exec at 1 3, on_end, emit. cbn [snd events self].
  rewrite exec_on_data. unfold after_data. fold o.
  cbn [self events buffer with_buffer].
  pose proof (incoming_not_ends o chunk He Hlen) as Hd.
  destruct (data_unterminated o chunk Hd) as [Hbuf Hrec].
  unfold data_events. rewrite Hbuf, Hrec, <- app_assoc. auto.
Qed.

(** C8.  A failure of the serialisation is not caught by [write]: the
    exception is the completion of the call, nothing is written to the
    output handle, no event is emitted and the object is unchanged. *)
Theorem write_propagates_serialization_failure (w : World) (json : Value)
  (callback : option Callback) (e : JsError) :
  JSON_stringify json = Thrown e ->
  fst (write json callback w) = Thrown e
  /\ out (snd (write json callback w)) = out w
  /\ events (snd (write json callback w)) = events w
  /\ self (snd (write json callback w)) = self w.
Proof.
  intros H. destruct w as [o ev pc ou].
  unfold write, bind, get_self, when, lift, perf_call, ret. cbn [self].
  rewrite H. destruct (perf o); repeat split; reflexivity.
Qed.

(** What [write] does with a value that serialises. *)
Lemma write_forwards_and_returns_signal_aux (w : World) (json : Value)
  (callback : option Callback) (s : string) :
  JSON_stringify json = Normal (Some s) ->
  fst (write json callback w)
  = Normal (stream_write (out w) (s ++ EOL (self w)))
  /\ out (snd (write json callback w))
     = (out w ++ [((s ++ EOL (self w))%string, callback)])%list
  /\ events (snd (write json callback w)) = events w
  /\ self (snd (write json callback w)) = self w.
Proof.
  intros H. destruct w as [o ev pc ou].
  unfold write, bind, get_self, when, lift, perf_call, streamOut_write, ret.
  cbn [self]. rewrite H.
  destruct (perf o); cbn [self out events perf_calls fst snd andb];
    destruct (stream_write ou (s ++ EOL o)); repeat split; reflexivity.
Qed.

(** C9.  For a value that serialises to the text [s], [write] passes
    exactly [s] followed by the delimiter (and the callback) to the output
    handle, once, and returns the signal the handle reports for it. *)
Theorem write_forwards_and_returns_signal (w : World) (json : Value)
  (callback : option Callback) (s : string) :
  JSON_stringify json = Normal (Some s) ->
  fst (write json callback w)
  = Normal (stream_write (out w) (s ++ EOL (self w)))
  /\ out (snd (write json callback w))
     = (out w ++ [((s ++ EOL (self w))%string, callback)])%list
  /\ events (snd (write json callback w)) = events w
  /\ self (snd (write json callback w)) = self w.
Proof. apply write_forwards_and_returns_signal_aux. Qed.

(** ** Further properties of the reader *)

Lemma with_buffer_with_buffer (o : JsonStream) (b b' : option string) :
  with_buffer (with_buffer o b) b' = with_buffer o b'.
Proof. reflexivity. Qed.

Lemma with_buffer_same (o : JsonStream) : with_buffer o (buffer o) = o.
Proof. destruct o; reflexivity. Qed.

Lemma feed_events_run (chunks : list string) :
  forall w : World,
    events (feed chunks w) = (events w ++ feed_events (self w) chunks)%list
    /\ out (feed chunks w) = out w
    /\ with_buffer (self (feed chunks w)) (buffer (self w)) = self w.
Proof.
  induction chunks as [| c rest IH]; intros w.
  - simpl. rewrite app_nil_r, with_buffer_same. auto.
  - cbn [feed feed_events]. rewrite exec_on_data.
    destruct (IH (after_data c w)) as (He & Ho & Hc).
    rewrite He, Ho. unfold after_data in *. cbn [self events out] in *.
    rewrite <- app_assoc. repeat split.
    pose proof (f_equal (fun o => with_buffer o (buffer (self w))) Hc) as Hc'.
    transitivity (with_buffer (self w) (buffer (self w)));
      [exact Hc' | apply with_buffer_same].
Qed.

(** X6.  Delivering chunks only appends to the event log: the events
    already emitted stay as they are, the new ones depend on the object
    alone; nothing is written to the output handle, and no field other than
    the buffer changes. *)
Theorem feed_only_appends_events (chunks : list string) (w : World) :
  events (feed chunks w) = (events w ++ feed_events (self w) chunks)%list
  /\ out (feed chunks w) = out w
  /\ with_buffer (self (feed chunks w)) (buffer (self w)) = self w.
Proof. apply feed_events_run. Qed.

Lemma prefix_append (a b : string) : prefix a (a ++ b) = true.
Proof.
  induction a as [| x a IH]; [destruct b; reflexivity |].
  simpl. destruct (ascii_dec x x); [exact IH | congruence].
Qed.

Lemma record_events_ok (o : JsonStream) (idx len : nat) (r : string) :
  forallb data_event_ok (record_events o idx len r) = true.
Proof.
  unfold record_events. destruct (Js.match_record r) eqn:Hm.
  - unfold parse_events. destruct (JSON_parse r) as [v | e].
    + destruct (truthy v) eqn:Ht; [simpl; rewrite Ht |]; reflexivity.
    + cbn [forallb data_event_ok message]. rewrite Hm, prefix_append.
      reflexivity.
  - unfold text_events.
    destruct (preserveWhitespace o || Js.match_nonspace r); [| reflexivity].
    cbv zeta.
    destruct (r ++ (if Nat.ltb idx (len - 1) then EOL o else "") =? "") eqn:E;
      [reflexivity |].
    cbn [forallb data_event_ok]. rewrite E. reflexivity.
Qed.

Lemma records_events_ok (o : JsonStream) (records : list string) :
  forall idx len,
    forallb data_event_ok (records_events o idx len records) = true.
Proof.
  induction records as [| r rest IH]; intros idx len; [reflexivity |].
  cbn [records_events]. rewrite forallb_app, record_events_ok, IH.
  reflexivity.
Qed.

Lemma feed_events_ok (chunks : list string) :
  forall o, forallb data_event_ok (feed_events o chunks) = true.
Proof.
  induction chunks as [| c rest IH]; intros o; [reflexivity |].
  cbn [feed_events]. rewrite forallb_app, IH. unfold data_events.
  rewrite records_events_ok. reflexivity.
Qed.

(** X7.  Every event the reader emits while chunks are delivered is of one
    of three shapes: a text event with a non-empty payload, a json event
    with a truthy value, or an error event whose record passed the
    pre-check and whose message starts with the prefix of the handler.
    The handler emits no empty text, no falsy json value, no end and no
    stream error. *)
Theorem feed_events_well_formed (chunks : list string) (w : World) :
  exists added : list Event,
    events (feed chunks w) = (events w ++ added)%list
    /\ forallb data_event_ok added = true.
Proof.
  exists (feed_events (self w) chunks). split.
  - apply feed_events_run.
  - apply feed_events_ok.
Qed.

Lemma split_scan_single (sep s h : string) :
  Js.split_scan sep 0 s = [h] -> h = s.
Proof.
  revert h; induction s as [| a s IH]; intros h H.
  - simpl in H. congruence.
  - cbn [Js.split_scan] in H. destruct (prefix sep (String a s)).
    + pose proof (split_scan_nonempty_any sep s (String.length sep - 1)).
      destruct (Js.split_scan sep (String.length sep - 1) s);
        [congruence | discriminate].
    + destruct (Js.split_scan sep 0 s) as [| h' t] eqn:E.
      * pose proof (split_scan_nonempty_any sep s 0). congruence.
      * destruct t; [| discriminate]. simpl in H.
        injection H as <-. rewrite (IH h' eq_refl). reflexivity.
Qed.

Lemma split_scan_last_no_occurrence (sep s : string) :
  sep <> "" ->
  forall k, Js.occurs_in sep (last (Js.split_scan sep k s) "") = false.
Proof.
  intros Hsep. induction s as [| a s IH]; intros k.
  - simpl. destruct sep; [congruence | reflexivity].
  - cbn [Js.split_scan]. destruct k as [| k]; [| apply IH].
    destruct (prefix sep (String a s)) eqn:Hp.
    + pose proof (split_scan_nonempty_any sep s (String.length sep - 1)) as Hne.
      specialize (IH (String.length sep - 1)).
      destruct (Js.split_scan sep (String.length sep - 1) s);
        [congruence | exact IH].
    + pose proof (split_scan_nonempty_any sep s 0) as Hne.
      specialize (IH 0).
      destruct (Js.split_scan sep 0 s) as [| h t] eqn:E; [congruence |].
      destruct t as [| h2 t].
      * cbn [Js.cons_head last] in *.
        rewrite (split_scan_single sep s h E) in *.
        cbn [Js.occurs_in]. rewrite Hp, IH. reflexivity.
      * exact IH.
Qed.

(** X1.  With a non-empty delimiter, the buffer the chunk-arrival handler
    leaves never contains the delimiter, whatever the object held before
    and whatever the chunk. *)
Theorem pending_never_contains_delimiter (w : World) (chunk : string) :
  EOL (self w) <> "" ->
  Js.occurs_in (EOL (self w)) (pending (self (exec (on_data chunk) w)))
  = false.
Proof.
  intros Hsep. rewrite exec_on_data. unfold after_data. cbn [self].
  destruct (Js.ends_with (incoming (self w) chunk) (EOL (self w))) eqn:E.
  - destruct (data_terminated (self w) chunk E) as [-> _].
    destruct (EOL (self w)); [congruence | reflexivity].
  - destruct (data_unterminated (self w) chunk E) as [-> _].
    unfold pending. cbn [with_buffer buffer]. unfold Js.split.
    destruct (EOL (self w)) as [| a sep] eqn:Es; [congruence |].
    apply split_scan_last_no_occurrence. discriminate.
Qed.

(** X2.  A chunk that completes no line is only accumulated: when the
    delimiter does not occur in the pending text followed by the chunk, and
    that text is within [maxLineLength], the handler emits nothing and the
    pending text becomes the old one followed by the chunk.  An empty chunk
    is a case of it. *)
Theorem chunk_without_delimiter_accumulates (w : World) (chunk : string) :
  Js.occurs_in (EOL (self w)) (pending (self w) ++ chunk) = false ->
  (Z.of_nat (String.length (pending (self w) ++ chunk))
   <= maxLineLength (self w))%Z ->
  pending (self (exec (on_data chunk) w)) = pending (self w) ++ chunk
  /\ events (exec (on_data chunk) w) = events w.
Proof.
  intros Hno Hmax. rewrite exec_on_data. unfold after_data.
  cbn [self events].
  pose proof (incoming_whole (self w) chunk Hmax) as Hin.
  pose proof (ends_with_no_occurrence _ _ Hno) as He.
  rewrite <- Hin in He.
  destruct (data_unterminated (self w) chunk He) as [Hbuf Hrec].
  unfold data_events. rewrite Hbuf, Hrec, Hin.
  assert (Hs : Js.split (pending (self w) ++ chunk) (EOL (self w))
               = [pending (self w) ++ chunk]).
  { unfold Js.split. destruct (EOL (self w)) eqn:E.
    - rewrite occurs_in_empty_sep in Hno. discriminate.
    - apply split_scan_no_occurrence. exact Hno. }
  rewrite Hs. simpl. rewrite app_nil_r. auto.
Qed.

(** X3.  Overflow.  When a non-empty buffer followed by the chunk is longer
    than a non-negative [maxLineLength], the text the handler splits is
    exactly the last [maxLineLength] code units of it: the front is
    dropped, whether or not it contained complete lines. *)
Theorem overflow_keeps_last_code_units (o : JsonStream) (chunk : string) :
  buffer_truthy o = true ->
  (0 <= maxLineLength o)%Z ->
  (maxLineLength o < Z.of_nat (String.length (pending o ++ chunk)))%Z ->
  Z.of_nat (String.length (incoming o chunk)) = maxLineLength o
  /\ exists dropped,
       pending o ++ chunk = dropped ++ incoming o chunk
       /\ (Z.of_nat (String.length dropped)
           = Z.of_nat (String.length (pending o ++ chunk))
             - maxLineLength o)%Z.
Proof.
  intros Hb Hpos Hlt. unfold incoming. rewrite Hb.
  destruct (Z.gtb_spec (Z.of_nat (String.length (pending o ++ chunk)))
                       (maxLineLength o)) as [_ | Hle]; [| lia].
  unfold Js.substring_from.
  set (k := Z.to_nat (Z.of_nat (String.length (pending o ++ chunk))
                      - maxLineLength o)).
  assert (Hlen : String.length (Js.drop k (pending o ++ chunk))
                 = String.length (pending o ++ chunk) - k)
    by apply length_drop.
  split; [subst k; lia |].
  exists (Js.take k (pending o ++ chunk)). split.
  - symmetry. apply take_drop.
  - pose proof (take_drop k (pending o ++ chunk)) as Htd.
    apply (f_equal String.length) in Htd. rewrite length_append in Htd.
    subst k. lia.
Qed.

(** Splitting loses nothing: the segments but the last, each followed by
    the delimiter, and then the last segment, are the text. *)
Lemma unlines_split_scan (c : ascii) (s : string) :
  Js.unlines (eol1 c)
    (removelast (Js.split_scan (eol1 c) 0 s))
    (last (Js.split_scan (eol1 c) 0 s) "")
  = s.
Proof.
  induction s as [| a s IH]; [reflexivity |].
  rewrite split_scan_cons.
  pose proof (split_scan_nonempty c s) as Hne.
  destruct (Js.split_scan (eol1 c) 0 s) as [| h t]; [congruence |].
  destruct (Ascii.eqb_spec a c) as [-> | Hac].
  - change (removelast ("" :: h :: t)) with ("" :: removelast (h :: t)).
    change (last ("" :: h :: t) "") with (last (h :: t) "").
    cbn [Js.unlines]. rewrite IH. reflexivity.
  - destruct t as [| h2 t].
    + cbn [Js.cons_head removelast last Js.unlines] in *. rewrite IH.
      reflexivity.
    + change (removelast (Js.cons_head a (h :: h2 :: t)))
        with (String a h :: removelast (h2 :: t)).
      change (last (Js.cons_head a (h :: h2 :: t)) "")
        with (last (h2 :: t) "").
      change (removelast (h :: h2 :: t)) with (h :: removelast (h2 :: t))
        in IH.
      change (last (h :: h2 :: t) "") with (last (h2 :: t) "") in IH.
      cbn [Js.unlines] in *. rewrite <- IH. reflexivity.
Qed.

(** X4.  With a delimiter of one code unit, an invocation of the handler
    cuts the text it splits into lines that are free of the delimiter, each
    followed by the delimiter, and a rest that is free of it: nothing of
    the text is lost or repeated.  The rest becomes the pending buffer, and
    with white space not preserved the events added are those of the lines,
    in order, up to the delimiter of text payloads. *)
Theorem handler_cuts_text_into_lines (c : ascii) (w : World)
  (chunk : string) :
  EOL (self w) = eol1 c ->
  let w' := exec (on_data chunk) w in
  exists lines : list string,
    incoming (self w) chunk
    = Js.unlines (eol1 c) lines (pending (self w'))
    /\ Forall (fun l => Js.has_char c l = false) lines
    /\ Js.has_char c (pending (self w')) = false
    /\ (preserveWhitespace (self w) = false ->
        map (strip_event (eol1 c)) (events w')
        = (map (strip_event (eol1 c)) (events w)
           ++ flat_map (line_events (self w)) lines)%list).
Proof.
  intros HE w'. subst w'. rewrite exec_on_data. unfold after_data.
  cbn [self events].
  exists (removelast (Js.split_scan (eol1 c) 0 (incoming (self w) chunk))).
  rewrite (data_buffer_eol1 (self w) c chunk HE).
  repeat split.
  - symmetry. apply unlines_split_scan.
  - apply split_scan_removelast_free.
  - apply split_scan_last_free.
  - intros Hpw. rewrite map_app.
    rewrite (data_events_stripped (self w) c chunk HE Hpw). reflexivity.
Qed.

(** *** Input made of white space only *)

Lemma match_nonspace_append (a b : string) :
  Js.match_nonspace (a ++ b) = Js.match_nonspace a || Js.match_nonspace b.
Proof.
  induction a as [| x a IH]; [reflexivity |].
  cbn [append Js.match_nonspace]. rewrite IH, orb_assoc. reflexivity.
Qed.

Lemma match_nonspace_drop (k : nat) (s : string) :
  Js.match_nonspace s = false -> Js.match_nonspace (Js.drop k s) = false.
Proof.
  revert s; induction k as [| k IH]; intros s H; [exact H |].
  destruct s as [| a s]; [reflexivity |].
  cbn [Js.match_nonspace] in H. apply orb_false_iff in H as [_ H].
  apply IH, H.
Qed.

Lemma blank_fails_precheck (r : string) :
  Js.match_nonspace r = false -> Js.match_record r = false.
Proof.
  induction r as [| a r IH]; [reflexivity |]. intros H.
  cbn [Js.match_nonspace] in H. apply orb_false_iff in H as [Ha Hr].
  apply negb_false_iff in Ha. cbn [Js.match_record].
  destruct (Ascii.eqb_spec a "{"%char) as [-> | _]; [discriminate |].
  rewrite Ha. apply IH, Hr.
Qed.

Lemma split_scan_blank (sep s : string) :
  Js.match_nonspace s = false ->
  forall k,
    Forall (fun r => Js.match_nonspace r = false) (Js.split_scan sep k s).
Proof.
  induction s as [| a s IH]; intros H k;
    [constructor; [reflexivity | constructor] |].
  cbn [Js.match_nonspace] in H. apply orb_false_iff in H as [Ha Hs].
  cbn [Js.split_scan]. destruct k as [| k]; [| apply (IH Hs)].
  destruct (prefix sep (String a s)).
  - constructor; [reflexivity | apply (IH Hs)].
  - specialize (IH Hs 0).
    destruct (Js.split_scan sep 0 s) as [| h t]; cbn [Js.cons_head].
    + constructor; [cbn [Js.match_nonspace]; rewrite Ha; reflexivity
                   | constructor].
    + inversion IH; subst. constructor; [| assumption].
      cbn [Js.match_nonspace]. rewrite Ha. assumption.
Qed.

Lemma split_blank (s sep : string) :
  Js.match_nonspace s = false ->
  Forall (fun r => Js.match_nonspace r = false) (Js.split s sep).
Proof.
  intros H. unfold Js.split. destruct sep; [| apply split_scan_blank, H].
  induction s as [| a s IH]; [constructor |].
  cbn [Js.match_nonspace] in H. apply orb_false_iff in H as [Ha Hs].
  cbn [Js.code_units]. constructor;
    [cbn [Js.match_nonspace]; rewrite Ha; reflexivity | apply IH, Hs].
Qed.

Lemma Forall_removelast {A} (P : A -> Prop) (l : list A) :
  Forall P l -> Forall P (removelast l).
Proof.
  intros H. destruct l as [| x l]; [constructor |].
  assert (Hne : x :: l <> []) by discriminate.
  destruct (exists_last Hne) as (front & y & Heq). rewrite Heq in *.
  rewrite removelast_last. apply Forall_app in H as [H _]. exact H.
Qed.

Lemma Forall_last (P : string -> Prop) (l : list string) :
  P "" -> Forall P l -> P (last l "").
Proof.
  intros Hd H. induction H as [| x l Hx H IH]; [exact Hd |].
  destruct l; [exact Hx | exact IH].
Qed.

Lemma incoming_blank (o : JsonStream) (chunk : string) :
  Js.match_nonspace (pending o) = false ->
  Js.match_nonspace chunk = false ->
  Js.match_nonspace (incoming o chunk) = false.
Proof.
  intros HP Hc. destruct (incoming_form o chunk) as (k & p & Hin).
  unfold incoming in *. destruct (buffer_truthy o).
  - assert (H : Js.match_nonspace (pending o ++ chunk) = false)
      by (rewrite match_nonspace_append, HP, Hc; reflexivity).
    destruct (Z.of_nat (String.length (pending o ++ chunk))
              >? maxLineLength o)%Z; [| exact H].
    apply match_nonspace_drop, H.
  - exact Hc.
Qed.

Lemma records_blank_silent (o : JsonStream) (records : list string) :
  preserveWhitespace o = false ->
  Forall (fun r => Js.match_nonspace r = false) records ->
  forall idx len,
    records_events o idx len records = []
    /\ records_perf o records = [].
Proof.
  intros Hpw H. induction H as [| r rest Hr _ IH]; intros idx len;
    [split; reflexivity |].
  cbn [records_events records_perf]. destruct (IH (S idx) len) as [-> ->].
  unfold record_events, record_perf, text_events.
  rewrite (blank_fails_precheck r Hr), Hpw, Hr. split; reflexivity.
Qed.

Lemma data_blank (o : JsonStream) (chunk : string) :
  Js.match_nonspace (incoming o chunk) = false ->
  Js.match_nonspace (pending o) = false ->
  Forall (fun r => Js.match_nonspace r = false) (data_records o chunk)
  /\ Js.match_nonspace (pending (with_buffer o (data_buffer o chunk)))
     = false.
Proof.
  intros Hin HP.
  pose proof (split_blank (incoming o chunk) (EOL o) Hin) as Hs.
  destruct (Js.ends_with (incoming o chunk) (EOL o)) eqn:E.
  - destruct (data_terminated o chunk E) as [-> ->]. split; [exact Hs | auto].
  - destruct (data_unterminated o chunk E) as [-> ->]. split.
    + apply Forall_removelast, Hs.
    + unfold pending. cbn [with_buffer buffer].
      apply (Forall_last (fun r => Js.match_nonspace r = false));
        [reflexivity | exact Hs].
Qed.

(** X5.  White space is silent by default: with [preserveWhitespace] off,
    chunks made of white space only (line feeds included), delivered to an
    object whose pending text is white space only, emit no event and make
    no call on the recorder; the pending text stays white space only. *)
Theorem blank_input_is_silent (chunks : list string) :
  forall w : World,
    preserveWhitespace (self w) = false ->
    Js.match_nonspace (pending (self w)) = false ->
    Forall (fun c => Js.match_nonspace c = false) chunks ->
    events (feed chunks w) = events w
    /\ perf_calls (feed chunks w) = perf_calls w
    /\ Js.match_nonspace (pending (self (feed chunks w))) = false.
Proof.
  induction chunks as [| c rest IH]; intros w Hpw HP HF; [auto |].
  inversion HF as [| c' rest' Hc Hrest]; subst.
  cbn [feed]. rewrite exec_on_data.
  pose proof (incoming_blank (self w) c HP Hc) as Hin.
  destruct (data_blank (self w) c Hin HP) as [Hrec Hpend].
  destruct (records_blank_silent (self w) _ Hpw Hrec 0
              (List.length (data_records (self w) c))) as [Hev Hperf].
  destruct (IH (after_data c w)) as (He & Hp & Hn);
    [exact Hpw | exact Hpend | exact Hrest |].
  rewrite He, Hp. repeat split; [| | exact Hn].
  - unfold after_data, data_events. cbn [events].
    rewrite Hev, app_nil_r. reflexivity.
  - unfold after_data. cbn [perf_calls].
    rewrite Hperf, app_nil_r. reflexivity.
Qed.

(** *** What the recorder is told by the reader *)

Lemma counted_app (key : string) (a b : list PerfCall) :
  counted key (a ++ b)%list = (counted key a + counted key b)%Z.
Proof.
  induction a as [| x a IH]; [reflexivity |].
  destruct x; cbn [app counted]; rewrite IH; lia.
Qed.

Lemma open_spans_app (key : string) (a b : list PerfCall) :
  open_spans key (a ++ b)%list = (open_spans key a + open_spans key b)%Z.
Proof.
  induction a as [| x a IH]; [reflexivity |].
  destruct x; cbn [app open_spans]; rewrite IH; lia.
Qed.

Lemma record_perf_account (o : JsonStream) (idx len : nat) (r : string) :
  open_spans "json_stream_parse" (record_perf o r) = 0%Z
  /\ (perf o = false -> record_perf o r = [])
  /\ (perf o = true ->
      (Z.of_nat (List.length
                   (filter is_decode_event (record_events o idx len r)))
       <= counted "json_stream_msgs_read" (record_perf o r))%Z).
Proof.
  unfold record_perf, record_events.
  destruct (Js.match_record r); cbn [andb].
  - repeat split.
    + destruct (perf o); reflexivity.
    + intros ->. reflexivity.
    + intros ->. unfold parse_events.
      destruct (JSON_parse r) as [v | e]; [destruct (truthy v) |];
        vm_compute; discriminate.
  - repeat split. intros _. unfold text_events.
    destruct (preserveWhitespace o || Js.match_nonspace r); [| simpl; lia].
    cbv zeta. destruct (_ =? ""); simpl; lia.
Qed.

Lemma records_perf_account (o : JsonStream) (records : list string) :
  forall idx len,
    open_spans "json_stream_parse" (records_perf o records) = 0%Z
    /\ (perf o = false -> records_perf o records = [])
    /\ (perf o = true ->
        (Z.of_nat (List.length
                     (filter is_decode_event
                        (records_events o idx len records)))
         <= counted "json_stream_msgs_read" (records_perf o records))%Z).
Proof.
  induction records as [| r rest IH]; intros idx len.
  - repeat split. simpl. lia.
  - destruct (IH (S idx) len) as (Hs & Hoff & Hon).
    destruct (record_perf_account o idx len r) as (Hs1 & Hoff1 & Hon1).
    cbn [records_perf records_events]. repeat split.
    + rewrite open_spans_app, Hs, Hs1. reflexivity.
    + intros Hp. rewrite (Hoff Hp), (Hoff1 Hp). reflexivity.
    + intros Hp. rewrite counted_app, filter_app, length_app.
      specialize (Hon Hp). specialize (Hon1 Hp). lia.
Qed.

Lemma length_unlines (c : ascii) (lines : list string) (tail : string) :
  String.length (Js.unlines (eol1 c) lines tail)
  = list_sum (map (fun l => S (String.length l)) lines) + String.length tail.
Proof.
  induction lines as [| l rest IH]; [reflexivity |].
  cbn [Js.unlines map list_sum]. rewrite !length_append, IH. simpl. lia.
Qed.

Lemma records_perf_app (o : JsonStream) (a b : list string) :
  records_perf o (a ++ b)%list = (records_perf o a ++ records_perf o b)%list.
Proof.
  induction a as [| r a IH]; [reflexivity |].
  cbn [app records_perf]. rewrite IH, app_assoc. reflexivity.
Qed.

Lemma counted_bytes_read_block (n : Z) :
  counted "json_stream_bytes_read"
    [PerfBegin "json_stream_parse"; PerfEnd "json_stream_parse";
     PerfCount "json_stream_msgs_read" 1;
     PerfCount "json_stream_bytes_read" n]
  = n.
Proof.
  cbn [counted].
  replace (String.eqb "json_stream_msgs_read" "json_stream_bytes_read")
    with false by reflexivity.
  rewrite String.eqb_refl. lia.
Qed.

Lemma records_perf_bytes (o : JsonStream) (c : ascii) (lines : list string) :
  EOL o = eol1 c ->
  (0 <= counted "json_stream_bytes_read" (records_perf o lines)
   <= Z.of_nat (list_sum (map (fun l => S (String.length l)) lines)))%Z.
Proof.
  intros HE. induction lines as [| l rest IH]; [simpl; lia |].
  cbn [records_perf map].
  change (list_sum (S (String.length l)
                    :: map (fun l => S (String.length l)) rest))
    with (S (String.length l)
          + list_sum (map (fun l => S (String.length l)) rest)).
  rewrite counted_app.
  assert (H : (0 <= counted "json_stream_bytes_read" (record_perf o l)
               <= Z.of_nat (S (String.length l)))%Z).
  { unfold record_perf. rewrite HE.
    destruct (Js.match_record l && perf o); [| simpl; lia].
    rewrite counted_bytes_read_block. cbn [eol1 String.length]. lia. }
  lia.
Qed.

Lemma incoming_length (o : JsonStream) (chunk : string) :
  String.length (incoming o chunk)
  <= String.length (pending o) + String.length chunk.
Proof.
  unfold incoming. destruct (buffer_truthy o); [| lia].
  destruct (Z.of_nat (String.length (pending o ++ chunk))
            >? maxLineLength o)%Z.
  - unfold Js.substring_from. rewrite length_drop, length_append. lia.
  - rewrite length_append. lia.
Qed.

Lemma data_bytes_bound (o : JsonStream) (c : ascii) (chunk : string) :
  EOL o = eol1 c ->
  (0 <= counted "json_stream_bytes_read"
          (records_perf o (data_records o chunk)))%Z
  /\ (counted "json_stream_bytes_read"
        (records_perf o (data_records o chunk))
      + Z.of_nat (String.length (pending (with_buffer o (data_buffer o chunk))))
      <= Z.of_nat (String.length (incoming o chunk)))%Z.
Proof.
  intros HE.
  pose proof (unlines_split_scan c (incoming o chunk)) as Hu.
  apply (f_equal String.length) in Hu. rewrite length_unlines in Hu.
  pose proof (records_perf_bytes o c
                (removelast (Js.split_scan (eol1 c) 0 (incoming o chunk)))
                HE) as Hb.
  rewrite (data_buffer_eol1 o c chunk HE), (data_records_eol1 o c chunk HE).
  destruct (Js.ends_with (incoming o chunk) (eol1 c)) eqn:E; [| lia].
  pose proof (split_scan_nonempty c (incoming o chunk)) as Hne.
  rewrite (app_removelast_last "" Hne) at 1 2.
  rewrite records_perf_app.
  assert (Hl : last (Js.split_scan (eol1 c) 0 (incoming o chunk)) "" = "").
  { apply ends_with_true in E as (p & ->).
    rewrite split_scan_terminated. apply last_last. }
  rewrite Hl in *. cbn [records_perf record_perf Js.match_record andb].
  rewrite !app_nil_r. lia.
Qed.

(** X9.  The bytes counter of the reader never runs ahead of the input:
    with a delimiter of one code unit, after any sequence of chunks the
    amount added to the bytes-read counter plus the length of the pending
    text is at most the length of the text that was pending before plus the
    lengths of the chunks delivered. *)
Theorem reader_bytes_counter_bounded (c : ascii) (chunks : list string) :
  forall w : World,
    EOL (self w) = eol1 c ->
    (counted "json_stream_bytes_read" (perf_calls w)
     <= counted "json_stream_bytes_read" (perf_calls (feed chunks w)))%Z
    /\ (counted "json_stream_bytes_read" (perf_calls (feed chunks w))
        + Z.of_nat (String.length (pending (self (feed chunks w))))
        <= counted "json_stream_bytes_read" (perf_calls w)
           + Z.of_nat (String.length (pending (self w)))
           + Z.of_nat (String.length (String.concat "" chunks)))%Z.
Proof.
  induction chunks as [| ch rest IH]; intros w HE; [simpl; lia |].
  cbn [feed]. rewrite exec_on_data, concat_cons, length_append.
  destruct (IH (after_data ch w) HE) as [Hmono Hle].
  destruct (data_bytes_bound (self w) c ch HE) as [Hpos Hb].
  pose proof (incoming_length (self w) ch) as Hin.
  assert (Ep : perf_calls (after_data ch w)
               = (perf_calls w
                  ++ records_perf (self w) (data_records (self w) ch))%list)
    by reflexivity.
  assert (Es : self (after_data ch w)
               = with_buffer (self w) (data_buffer (self w) ch))
    by reflexivity.
  rewrite Ep, counted_app in Hmono, Hle. rewrite Es in Hle.
  lia.
Qed.

(** ** Further properties of the writer *)

Ltac eval_keys :=
  repeat match goal with
         | |- context [String.eqb ?a ?b] =>
             let r := eval vm_compute in (String.eqb a b) in
             change (String.eqb a b) with r
         end.

(** X10.  The recorder and the writer.  For a value that serialises, with
    a recorder attached: the bytes-written counter grows by exactly the
    length of the text passed to the output handle, the messages counter by
    one, the saturation counter by one exactly when the handle reports
    saturation, and the timer span begun is ended. *)
Theorem writer_recorder_accounting (w : World) (json : Value)
  (callback : option Callback) (s : string) :
  JSON_stringify json = Normal (Some s) ->
  perf (self w) = true ->
  let w' := snd (write json callback w) in
  let grown := fun key =>
    (counted key (perf_calls w') - counted key (perf_calls w))%Z in
  grown "json_stream_bytes_written"
  = Z.of_nat (String.length (s ++ EOL (self w)))
  /\ grown "json_stream_msgs_written" = 1%Z
  /\ grown "json_stream_write_buffer"
     = (if stream_write (out w) (s ++ EOL (self w)) then 0 else 1)%Z
  /\ open_spans "json_stream_compose" (perf_calls w')
     = open_spans "json_stream_compose" (perf_calls w).
Proof.
  intros Hs Hp w' grown. subst w' grown. destruct w as [o ev pc ou].
  cbn [self out perf_calls] in *.
  unfold write, bind, get_self, when, lift, perf_call, streamOut_write, ret.
  cbn [self]. rewrite Hs, Hp.
  cbn [self out events perf_calls fst snd andb negb].
  destruct (stream_write ou (s ++ EOL o));
    cbn [negb andb snd perf_calls];
    rewrite <- ?app_assoc, ?counted_app, ?open_spans_app;
    cbn [app counted open_spans]; eval_keys;
    rewrite ?length_append; repeat split; lia.
Qed.

(** X11.  A value without JSON text (the serialiser returns [undefined]).
    Without a recorder, [write] passes the text [undefined] followed by
    the delimiter to the output handle and returns its signal.  With a
    recorder, [write] throws when it reads the length of the missing text:
    nothing is written, although the timer was ended and the message
    counted. *)
Theorem write_of_undefined_text (w : World) (json : Value)
  (callback : option Callback) :
  JSON_stringify json = Normal None ->
  (perf (self w) = false ->
   fst (write json callback w)
   = Normal (stream_write (out w) ("undefined" ++ EOL (self w)))
   /\ out (snd (write json callback w))
      = (out w ++ [(("undefined" ++ EOL (self w))%string, callback)])%list
   /\ perf_calls (snd (write json callback w)) = perf_calls w)
  /\ (perf (self w) = true ->
      fst (write json callback w) = Thrown undefined_length_error
      /\ out (snd (write json callback w)) = out w
      /\ perf_calls (snd (write json callback w))
         = (perf_calls w
            ++ [PerfBegin "json_stream_compose";
                PerfEnd "json_stream_compose";
                PerfCount "json_stream_msgs_written" 1])%list).
Proof.
  intros Hs. destruct w as [o ev pc ou]. cbn [self out perf_calls].
  unfold write, bind, get_self, when, lift, perf_call, streamOut_write,
    throw, ret.
  cbn [self]. rewrite Hs. split; intros Hp; rewrite Hp;
    cbn [self out events perf_calls fst snd andb negb].
  - rewrite andb_false_r. cbn [fst snd out perf_calls]. auto.
  - rewrite <- !app_assoc. auto.
Qed.

(** X12.  A failing serialisation and the recorder: with a recorder
    attached, the timer span of the serialisation is begun and never
    ended, and nothing is counted; with none attached no call is made. *)
Theorem write_failure_leaves_span_open (w : World) (json : Value)
  (callback : option Callback) (e : JsError) :
  JSON_stringify json = Thrown e ->
  perf_calls (snd (write json callback w))
  = (perf_calls w
     ++ (if perf (self w) then [PerfBegin "json_stream_compose"] else []))%list
  /\ open_spans "json_stream_compose" (perf_calls (snd (write json callback w)))
     = (open_spans "json_stream_compose" (perf_calls w)
        + (if perf (self w) then 1 else 0))%Z.
Proof.
  intros Hs. destruct w as [o ev pc ou]. cbn [self out perf_calls].
  unfold write, bind, get_self, when, lift, perf_call, ret.
  cbn [self]. rewrite Hs. destruct (perf o); cbn [snd perf_calls].
  - rewrite open_spans_app. cbn [open_spans]. eval_keys. split; [auto | lia].
  - rewrite app_nil_r. split; [auto | lia].
Qed.

(** *** Written records read back under any chunking *)

(** A value that serialises to [s], an object text free of the code unit
    [c] that decodes back to the value. *)
Definition frames_as (c : ascii) (v : Value) (s : string) : Prop :=
  JSON_stringify v = Normal (Some s)
  /\ JSON_parse s = Normal v
  /\ truthy v = true
  /\ Js.match_record s = true
  /\ Js.has_char c s = false.

Lemma write_all_out (c : ascii) (values : list Value) (texts : list string) :
  Forall2 (frames_as c) values texts ->
  forall w : World,
    EOL (self w) = eol1 c ->
    map fst (out (write_all values w))
    = (map fst (out w) ++ map (fun s => (s ++ eol1 c)%string) texts)%list.
Proof.
  intros HF. induction HF as [| v s values texts Hv _ IH]; intros w HE.
  - simpl. rewrite app_nil_r. reflexivity.
  - cbn [write_all map]. destruct Hv as (Hs & _).
    destruct (write_forwards_and_returns_signal_aux w v None s Hs)
      as (_ & Ho & _ & Hself).
    unfold exec. rewrite IH by (rewrite Hself; exact HE).
    rewrite Ho, map_app, HE, <- app_assoc. reflexivity.
Qed.

Lemma concat_framed (c : ascii) (texts : list string) :
  String.concat "" (map (fun s => (s ++ eol1 c)%string) texts)
  = Js.unlines (eol1 c) texts "".
Proof.
  induction texts as [| s rest IH]; [reflexivity |].
  cbn [map Js.unlines]. rewrite concat_cons, IH, append_assoc. reflexivity.
Qed.

Lemma line_events_framed (o : JsonStream) (c : ascii)
  (values : list Value) (texts : list string) :
  Forall2 (frames_as c) values texts ->
  flat_map (line_events o) texts = map EvJson values.
Proof.
  intros HF. induction HF as [| v s values texts Hv _ IH]; [reflexivity |].
  destruct Hv as (_ & Hp & Ht & Hm & _).
  cbn [flat_map map]. rewrite IH. unfold line_events, parse_events.
  rewrite Hm, Hp, Ht. reflexivity.
Qed.

Lemma strip_event_json (eol : string) (l : list Event) (values : list Value) :
  map (strip_event eol) l = map EvJson values -> l = map EvJson values.
Proof.
  revert values; induction l as [| e l IH]; intros values H.
  - destruct values; [reflexivity | discriminate].
  - destruct values as [| v values]; [discriminate |].
    cbn [map] in H. destruct e; cbn [strip_event] in H; try discriminate.
    inversion H as [[He Hl]]. cbn [map]. f_equal. apply IH, Hl.
Qed.

Lemma frames_free (c : ascii) (values : list Value) (texts : list string) :
  Forall2 (frames_as c) values texts ->
  Forall (fun l => Js.has_char c l = false) texts.
Proof.
  intros HF. induction HF as [| v s values texts Hv _ IH]; constructor;
    [apply Hv | exact IH].
Qed.

(** X13.  Round trip of a sequence, however the bytes are cut.  Values
    that each serialise to an object text free of the delimiter (one code
    unit) and decode back are written one after the other; the bytes
    written, cut into chunks in any way and delivered to a reader as
    constructed with the same delimiter (nothing pending, no event yet,
    white space not preserved, [maxLineLength] not exceeded), give exactly
    one json event per value, in the order written, and leave nothing
    pending. *)
Theorem round_trip_under_any_chunking (c : ascii) (values : list Value)
  (texts chunks : list string) (writer reader : JsonStream) :
  Forall2 (frames_as c) values texts ->
  EOL writer = eol1 c -> EOL reader = eol1 c ->
  preserveWhitespace reader = false ->
  pending reader = "" ->
  let written := map fst (out (write_all values (new_World writer))) in
  String.concat "" chunks = String.concat "" written ->
  (Z.of_nat (String.length (String.concat "" chunks))
   <= maxLineLength reader)%Z ->
  written = map (fun s => (s ++ eol1 c)%string) texts
  /\ events (feed chunks (new_World reader)) = map EvJson values
  /\ pending (self (feed chunks (new_World reader))) = "".
Proof.
  intros HF Hw Hr Hpw HP written Hcat Hmax.
  assert (Hwritten : written = map (fun s => (s ++ eol1 c)%string) texts).
  { subst written. rewrite (write_all_out c values texts HF) by exact Hw.
    reflexivity. }
  split; [exact Hwritten |].
  rewrite Hwritten, concat_framed in Hcat.
  destruct (feed_complete_lines c texts chunks (new_World reader)
              Hr Hpw HP (frames_free c values texts HF) Hcat Hmax)
    as [He Hp].
  split; [| exact Hp].
  apply (strip_event_json (eol1 c)). rewrite He.
  cbn [new_World events map app]. apply (line_events_framed _ c), HF.
Qed.

(** ** Errors of the stream handles *)

Lemma feed_self_only (chunks : list string) :
  forall w1 w2 : World,
    self w1 = self w2 -> self (feed chunks w1) = self (feed chunks w2).
Proof.
  induction chunks as [| c rest IH]; intros w1 w2 H; [exact H |].
  cbn [feed]. apply IH. rewrite !exec_on_data. unfold after_data.
  cbn [self]. rewrite H. reflexivity.
Qed.

(** ** The constructor and [setPerf] *)

(** X15.  The object the constructor makes.  The buffer is unassigned,
    the delimiter is the line feed, the maximum is 1048576, white space is
    not preserved and no recorder is attached.  Without an output handle,
    or with the input handle given as output handle, an error of the input
    handle is emitted as it is and the listener for output errors does not
    exist; with another output handle both kinds of error are emitted as
    texts naming their stream. *)
Theorem constructor_defaults_and_errors (stream_in : nat)
  (stream_out : option nat) (err : JsError) :
  let o := constructor stream_in stream_out in
  let one_handle :=
    match stream_out with
    | None => true
    | Some h => Nat.eqb h stream_in
    end in
  (buffer o = None /\ EOL o = Js.LF /\ maxLineLength o = 1048576%Z
   /\ preserveWhitespace o = false /\ perf o = false)
  /\ events (exec (on_streamIn_error err) (new_World o))
     = (if one_handle then [EvStreamError err]
        else [EvStreamErrorText ("Error in input stream: " ++ message err)])
  /\ events (exec (on_streamOut_error err) (new_World o))
     = (if one_handle then []
        else [EvStreamErrorText ("Error in output stream: " ++ message err)]).
Proof.
  intros o one_handle. subst o one_handle. unfold constructor.
  destruct stream_out as [h |].
  - destruct (Nat.eqb h stream_in); repeat split.
  - rewrite Nat.eqb_refl. repeat split.
Qed.

Lemma data_setPerf (attached : bool) (o : JsonStream) (chunk : string) :
  data_events (setPerf attached o) chunk = data_events o chunk
  /\ data_buffer (setPerf attached o) chunk = data_buffer o chunk.
Proof.
  assert (Hrec : forall records idx len,
             records_events (setPerf attached o) idx len records
             = records_events o idx len records).
  { induction records as [| r rest IH]; intros idx len; [reflexivity |].
    cbn [records_events]. rewrite IH. reflexivity. }
  split; [| reflexivity]. unfold data_events. rewrite Hrec. reflexivity.
Qed.

Lemma feed_events_setPerf (attached : bool) (chunks : list string) :
  forall o,
    feed_events (setPerf attached o) chunks = feed_events o chunks.
Proof.
  induction chunks as [| c rest IH]; intros o; [reflexivity |].
  cbn [feed_events]. destruct (data_setPerf attached o c) as [-> ->].
  change (with_buffer (setPerf attached o) (data_buffer o c))
    with (setPerf attached (with_buffer o (data_buffer o c))).
  rewrite IH. reflexivity.
Qed.

(** X16.  The recorder only observes the reader: attaching or detaching
    one with [setPerf] changes neither the events that chunks give nor the
    text left pending. *)
Theorem recorder_does_not_change_reading (attached : bool)
  (chunks : list string) (o : JsonStream) :
  events (feed chunks (new_World (setPerf attached o)))
  = events (feed chunks (new_World o))
  /\ pending (self (feed chunks (new_World (setPerf attached o))))
     = pending (self (feed chunks (new_World o))).
Proof.
  split.
  - destruct (feed_events_run chunks (new_World (setPerf attached o)))
      as (-> & _).
    destruct (feed_events_run chunks (new_World o)) as (-> & _).
    cbn [new_World self events]. rewrite feed_events_setPerf. reflexivity.
  - assert (H : forall cs w1 w2,
               self w1 = setPerf attached (self w2) ->
               self (feed cs w1) = setPerf attached (self (feed cs w2))).
    { induction cs as [| c rest IH]; intros w1 w2 H; [exact H |].
      cbn [feed]. apply IH. rewrite !exec_on_data. unfold after_data.
      cbn [self]. rewrite H.
      destruct (data_setPerf attached (self w2) c) as [_ ->]. reflexivity. }
    rewrite (H chunks (new_World (setPerf attached o)) (new_World o) eq_refl).
    reflexivity.
Qed.

(** ** Degenerate settings *)

Lemma length_zero_empty (s : string) : String.length s = 0 -> s = "".
Proof. destruct s; [reflexivity | discriminate]. Qed.

(** X17.  The empty delimiter.  Every text ends with the empty string,
    so nothing is ever kept back: the handler runs its loop over the code
    units of the text, one record each, and leaves the pending buffer
    empty. *)
Theorem empty_delimiter_buffers_nothing (w : World) (chunk : string) :
  EOL (self w) = "" ->
  pending (self (exec (on_data chunk) w)) = ""
  /\ data_records (self w) chunk = Js.code_units (incoming (self w) chunk)
  /\ List.length (data_records (self w) chunk)
     = String.length (incoming (self w) chunk).
Proof.
  intros HE. rewrite exec_on_data. unfold after_data. cbn [self].
  pose proof (ends_with_empty_suffix (incoming (self w) chunk)) as He.
  rewrite <- HE in He.
  destruct (data_terminated (self w) chunk He) as [Hp Hr].
  rewrite Hp, Hr, HE. repeat split.
  unfold Js.split. clear.
  induction (incoming (self w) chunk) as [| a s IH];
    [reflexivity | simpl; rewrite IH; reflexivity].
Qed.

(** X18.  A maximum of zero or less.  A chunk that arrives on a non-empty
    buffer is then discarded together with the buffer: no event is emitted
    and nothing is left pending. *)
Theorem nonpositive_maximum_discards (w : World) (chunk : string) :
  (maxLineLength (self w) <= 0)%Z ->
  buffer_truthy (self w) = true ->
  incoming (self w) chunk = ""
  /\ events (exec (on_data chunk) w) = events w
  /\ pending (self (exec (on_data chunk) w)) = "".
Proof.
  intros Hmax Hb.
  assert (Hin : incoming (self w) chunk = "").
  { assert (Hp : pending (self w) <> "").
    { unfold buffer_truthy, pending in *.
      destruct (buffer (self w)) as [b |]; [| discriminate].
      destruct (String.eqb_spec b ""); [discriminate | assumption]. }
    apply length_zero_empty.
    unfold incoming. rewrite Hb.
    assert (0 < String.length (pending (self w) ++ chunk)).
    { rewrite length_append. destruct (pending (self w)); [congruence |].
      simpl. lia. }
    destruct (Z.gtb_spec
                (Z.of_nat (String.length (pending (self w) ++ chunk)))
                (maxLineLength (self w))); [| lia].
    unfold Js.substring_from. rewrite length_drop. lia. }
  split; [exact Hin |].
  rewrite exec_on_data. unfold after_data, data_events, data_records,
    data_buffer. cbn [self events]. rewrite Hin, Hb.
  change (ends_on_EOL "" (EOL (self w)))
    with (Js.ends_with "" (EOL (self w))).
  destruct (EOL (self w)) as [| a sep]; split; try reflexivity;
    cbn; rewrite ?app_nil_r; reflexivity.
Qed.

(** ** Objects without an ['error'] listener: what the handlers do *)

Lemma on_record_to_listening (idx len : nat) (r : string) (w : World) :
  on_record_to true idx len r w = on_record idx len r w.
Proof.
  unfold on_record_to, on_record, emit_to, bind, get_self. cbn [self].
  destruct (Js.match_record r); [| reflexivity].
  destruct (perf (self w)); reflexivity.
Qed.

Lemma for_records_to_listening (records : list string) :
  forall idx len w,
    for_records_to true idx len records w = for_records idx len records w.
Proof.
  induction records as [| r rest IH]; intros idx len w; [reflexivity |].
  cbn [for_records_to for_records]. unfold bind.
  rewrite on_record_to_listening.
  destruct (on_record idx len r w) as [[[] | e] w']; [apply IH | reflexivity].
Qed.

Lemma on_data_to_listening (chunk : string) (w : World) :
  on_data_to true chunk w = on_data chunk w.
Proof.
  unfold on_data_to, on_data, bind, get_self.
  destruct (when (buffer_truthy (self w)) (assign_buffer (Some "")) w)
    as [[[] | e] w1]; [| reflexivity].
  destruct (negb (ends_on_EOL (incoming (self w) chunk) (EOL (self w)))).
  - destruct (Js.pop (Js.split (incoming (self w) chunk) (EOL (self w))))
      as [front lst].
    unfold bind. destruct (assign_buffer lst w1) as [[[] | e] w2];
      [| reflexivity].
    unfold ret. apply for_records_to_listening.
  - unfold ret. apply for_records_to_listening.
Qed.

Lemma feed_to_listening (chunks : list string) :
  forall w, feed_to true chunks w = feed chunks w.
Proof.
  induction chunks as [| c rest IH]; intros w; [reflexivity |].
  cbn [feed_to feed]. unfold exec. rewrite on_data_to_listening. apply IH.
Qed.

(** The loop body without a listener: as with one, unless the decode
    fails; then the error is thrown out of the body, after the begin of the
    timer span and before anything else. *)
Lemma on_record_to_run (idx len : nat) (r : string) (w : World) :
  on_record_to false idx len r w =
  match decode_failure r with
  | None => on_record idx len r w
  | Some e =>
      (Thrown e,
       mkWorld (self w) (events w)
               (perf_calls w
                ++ (if perf (self w)
                    then [PerfBegin "json_stream_parse"] else []))%list
               (out w))
  end.
Proof.
  destruct w as [o ev pc ou].
  unfold decode_failure, on_record_to, on_record, emit_to, bind, get_self,
    try_catch, lift, when, emit, perf_call, throw, ret.
  cbn [self].
  destruct (Js.match_record r); [| reflexivity].
  destruct (perf o); cbn [self events perf_calls out];
    destruct (JSON_parse r) as [v | e]; cbn [self events perf_calls out];
    rewrite ?app_nil_r; reflexivity.
Qed.

Lemma for_records_to_run (listening : bool) (records : list string) :
  forall (idx len : nat) (w : World),
    for_records_to listening idx len records w =
    (completion_to listening records,
     mkWorld (self w)
             (events w ++ events_to listening (self w) idx len records)%list
             (perf_calls w ++ perf_to listening (self w) records)%list
             (out w)).
Proof.
  destruct listening.
  - intros idx len w. rewrite for_records_to_listening, for_records_run.
    reflexivity.
  - unfold completion_to, events_to, perf_to.
    induction records as [| r rest IH]; intros idx len w.
    + destruct w; cbn. unfold ret. rewrite !app_nil_r. reflexivity.
    + cbn [for_records_to first_failure before_failure]. unfold bind.
      rewrite on_record_to_run.
      destruct (decode_failure r) as [e |].
      * cbn [records_events records_perf app]. rewrite app_nil_r.
        reflexivity.
      * rewrite on_record_run, IH. cbn [self events perf_calls out].
        cbn [records_events records_perf].
        rewrite <- !app_assoc. reflexivity.
Qed.

Lemma events_to_with_buffer (listening : bool) (o : JsonStream)
  (b : option string) (idx len : nat) (records : list string) :
  events_to listening (with_buffer o b) idx len records
  = events_to listening o idx len records.
Proof. unfold events_to. apply records_events_with_buffer. Qed.

Lemma perf_to_with_buffer (listening : bool) (o : JsonStream)
  (b : option string) (records : list string) :
  perf_to listening (with_buffer o b) records = perf_to listening o records.
Proof.
  unfold perf_to. rewrite !records_perf_with_buffer. reflexivity.
Qed.

Lemma on_data_to_run (listening : bool) (chunk : string) (w : World) :
  on_data_to listening chunk w =
  (completion_to listening (data_records (self w) chunk),
   after_data_to listening chunk w).
Proof.
  destruct w as [o ev pc ou].
  unfold on_data_to, after_data_to, data_records, data_buffer,
    bind, get_self, when; simpl.
  destruct (buffer_truthy o) eqn:Hb; simpl;
    destruct (negb (ends_on_EOL (incoming o chunk) (EOL o))) eqn:He; simpl.
  - destruct (Js.pop (Js.split (incoming o chunk) (EOL o))) as [front lst].
    unfold bind, assign_buffer, ret; simpl.
    rewrite for_records_to_run; simpl.
    change (mkJsonStream lst (perf o) (preserveWhitespace o)
              (maxLineLength o) (EOL o) (separateStreams o))
      with (with_buffer o lst).
    rewrite events_to_with_buffer, perf_to_with_buffer. reflexivity.
  - unfold assign_buffer, ret; simpl. rewrite for_records_to_run; simpl.
    change (mkJsonStream (Some "") (perf o) (preserveWhitespace o)
              (maxLineLength o) (EOL o) (separateStreams o))
      with (with_buffer o (Some "")).
    rewrite events_to_with_buffer, perf_to_with_buffer. reflexivity.
  - unfold ret at 1; simpl.
    destruct (Js.pop (Js.split (incoming o chunk) (EOL o))) as [front lst].
    unfold bind, assign_buffer, ret; simpl.
    rewrite for_records_to_run; simpl.
    change (mkJsonStream lst (perf o) (preserveWhitespace o)
              (maxLineLength o) (EOL o) (separateStreams o))
      with (with_buffer o lst).
    rewrite events_to_with_buffer, perf_to_with_buffer. reflexivity.
  - unfold ret; simpl. rewrite for_records_to_run. destruct o; reflexivity.
Qed.

Lemma exec_on_data_to (listening : bool) (chunk : string) (w : World) :
  exec (on_data_to listening chunk) w = after_data_to listening chunk w.
Proof. unfold exec. rewrite on_data_to_run. reflexivity. Qed.

Lemma first_failure_none_before (records : list string) :
  first_failure records = None -> before_failure records = records.
Proof.
  induction records as [| r rest IH]; [reflexivity |].
  cbn [first_failure before_failure].
  destruct (decode_failure r); [discriminate |].
  intros H. rewrite (IH H). reflexivity.
Qed.

Lemma first_failure_at (before after : list string) (r : string)
  (e : JsError) :
  first_failure before = None ->
  decode_failure r = Some e ->
  first_failure (before ++ r :: after) = Some e
  /\ before_failure (before ++ r :: after) = before.
Proof.
  intros Hb Hr. induction before as [| x before IH].
  - cbn [app first_failure before_failure]. rewrite Hr. auto.
  - cbn [app first_failure before_failure] in *.
    destruct (decode_failure x); [discriminate |].
    destruct (IH Hb) as [-> ->]. auto.
Qed.

Lemma first_failure_app (a b : list string) :
  first_failure (a ++ b) = None <->
  first_failure a = None /\ first_failure b = None.
Proof.
  induction a as [| x a IH]; cbn [app first_failure].
  - tauto.
  - destruct (decode_failure x); [| exact IH].
    split; [discriminate | intros [H _]; discriminate].
Qed.

(** Without a failing decode the listener plays no part. *)
Lemma on_data_to_no_failure (listening : bool) (chunk : string)
  (w : World) :
  listening = true \/ first_failure (data_records (self w) chunk) = None ->
  on_data_to listening chunk w = on_data chunk w.
Proof.
  intros [-> | H]; [apply on_data_to_listening |].
  destruct listening; [apply on_data_to_listening |].
  rewrite on_data_to_run, on_data_run.
  unfold completion_to, after_data_to, after_data, events_to, perf_to,
    data_events.
  rewrite H, (first_failure_none_before _ H), app_nil_r. reflexivity.
Qed.

(** C10 (amended).  Completion of the chunk-arrival handler.  With an
    ['error'] listener on the object the handler returns normally, for
    every object and chunk; so it does, listener or not, when no record of
    the invocation fails to decode.  Without a listener it throws at the
    first record that passes the pre-check and fails to decode: the
    completion is the parse error made in the catch block, thrown by
    [emit], and the events emitted are those of the records before it. *)
Theorem on_data_completion (listening : bool) (w : World) (chunk : string) :
  let records := data_records (self w) chunk in
  (listening = true -> fst (on_data_to listening chunk w) = Normal tt)
  /\ (first_failure records = None ->
      fst (on_data_to listening chunk w) = Normal tt)
  /\ (listening = false ->
      forall (before after : list string) (r : string) (e : JsError),
        records = (before ++ r :: after)%list ->
        first_failure before = None ->
        Js.match_record r = true ->
        JSON_parse r = Thrown e ->
        fst (on_data_to listening chunk w)
        = Thrown (mkError ("JSON Parse Error: " ++ message e))
        /\ events (snd (on_data_to listening chunk w))
           = (events w
              ++ records_events (self w) 0 (List.length records) before)%list).
Proof.
  intros records. subst records. repeat split.
  - intros ->. rewrite on_data_to_run. reflexivity.
  - intros H. rewrite on_data_to_run. unfold completion_to. rewrite H.
    destruct listening; reflexivity.
  - rewrite on_data_to_run. cbn [fst]. unfold completion_to. subst listening.
    assert (Hr : decode_failure r
                 = Some (mkError ("JSON Parse Error: " ++ message e)))
      by (unfold decode_failure; rewrite H2, H3; reflexivity).
    rewrite H0. destruct (first_failure_at before after r _ H1 Hr) as [-> _].
    reflexivity.
  - rewrite on_data_to_run. cbn [snd]. unfold after_data_to, events_to.
    cbn [events]. subst listening.
    assert (Hr : decode_failure r
                 = Some (mkError ("JSON Parse Error: " ++ message e)))
      by (unfold decode_failure; rewrite H2, H3; reflexivity).
    rewrite H0. destruct (first_failure_at before after r _ H1 Hr) as [_ ->].
    reflexivity.
Qed.

Lemma feed_recorder_account (chunks : list string) :
  forall w : World,
    open_spans "json_stream_parse" (perf_calls (feed chunks w))
    = open_spans "json_stream_parse" (perf_calls w)
    /\ (perf (self w) = false -> perf_calls (feed chunks w) = perf_calls w)
    /\ (perf (self w) = true ->
        (Z.of_nat (List.length
                     (filter is_decode_event
                        (feed_events (self w) chunks)))
         <= counted "json_stream_msgs_read" (perf_calls (feed chunks w))
            - counted "json_stream_msgs_read" (perf_calls w))%Z).
Proof.
  induction chunks as [| c rest IH]; intros w.
  - simpl. repeat split. intros _. lia.
  - cbn [feed feed_events]. rewrite exec_on_data.
    destruct (IH (after_data c w)) as (Hs & Hoff & Hon).
    destruct (records_perf_account (self w) (data_records (self w) c) 0
                (List.length (data_records (self w) c)))
      as (Hs1 & Hoff1 & Hon1).
    assert (Ep : perf_calls (after_data c w)
                 = (perf_calls w
                    ++ records_perf (self w) (data_records (self w) c))%list)
      by reflexivity.
    assert (Es : self (after_data c w)
                 = with_buffer (self w) (data_buffer (self w) c))
      by reflexivity.
    rewrite Ep, Es in *. cbn [with_buffer perf] in Hoff, Hon.
    repeat split.
    + rewrite Hs, open_spans_app, Hs1. lia.
    + intros Hp. rewrite (Hoff Hp), (Hoff1 Hp), app_nil_r. reflexivity.
    + intros Hp. specialize (Hon Hp). specialize (Hon1 Hp).
      rewrite counted_app in Hon.
      rewrite filter_app, length_app. unfold data_events. lia.
Qed.

Lemma feed_to_detached (listening : bool) (chunks : list string) :
  forall w : World,
    perf (self w) = false ->
    perf_calls (feed_to listening chunks w) = perf_calls w.
Proof.
  induction chunks as [| c rest IH]; intros w Hp; [reflexivity |].
  cbn [feed_to]. rewrite exec_on_data_to.
  rewrite IH by (unfold after_data_to; cbn [self with_buffer perf]; exact Hp).
  unfold after_data_to. cbn [perf_calls]. unfold perf_to. rewrite Hp.
  destruct (records_perf_account (self w)
              (data_records (self w) c) 0 0) as (_ & Hoff & _).
  destruct (records_perf_account (self w)
              (before_failure (data_records (self w) c)) 0 0)
    as (_ & Hoff' & _).
  rewrite (Hoff Hp), (Hoff' Hp).
  destruct listening; [| destruct (first_failure _)];
    rewrite ?app_nil_r; reflexivity.
Qed.

(** X8.  The recorder and the reader.  With no recorder attached the
    reader makes no call on it.  With an ['error'] listener on the object,
    every timer span the reader begins while chunks are delivered it also
    ends, a failing decode included, and with a recorder attached the
    messages counter grows by at least the number of json and error events
    emitted.  Without a listener, an invocation in which a decode fails
    leaves the span of that decode open: [emit] throws in the catch block
    before the recorder is told the end. *)
Theorem reader_recorder_accounting (listening : bool)
  (chunks : list string) (w : World) :
  (perf (self w) = false ->
   perf_calls (feed_to listening chunks w) = perf_calls w)
  /\ (listening = true ->
      open_spans "json_stream_parse" (perf_calls (feed_to listening chunks w))
      = open_spans "json_stream_parse" (perf_calls w)
      /\ (perf (self w) = true ->
          (Z.of_nat (List.length
                       (filter is_decode_event
                          (feed_events (self w) chunks)))
           <= counted "json_stream_msgs_read"
                (perf_calls (feed_to listening chunks w))
              - counted "json_stream_msgs_read" (perf_calls w))%Z))
  /\ (forall chunk : string,
        open_spans "json_stream_parse"
          (perf_calls (exec (on_data_to false chunk) w))
        = (open_spans "json_stream_parse" (perf_calls w)
           + (if perf (self w)
              then match first_failure (data_records (self w) chunk) with
                   | Some _ => 1
                   | None => 0
                   end
              else 0))%Z).
Proof.
  split; [apply feed_to_detached |]. split.
  - intros ->. rewrite feed_to_listening.
    destruct (feed_recorder_account chunks w) as (Hs & _ & Hon). auto.
  - intros chunk. rewrite exec_on_data_to. unfold after_data_to.
    cbn [perf_calls]. unfold perf_to. rewrite !open_spans_app.
    destruct (records_perf_account (self w)
                (before_failure (data_records (self w) chunk)) 0 0)
      as (-> & _).
    destruct (first_failure (data_records (self w) chunk));
      destruct (perf (self w)); cbn; lia.
Qed.

Lemma feed_to_frame (listening : bool) (chunks : list string) :
  forall w1 w2 : World,
    self w1 = self w2 ->
    exists added : list Event,
      events (feed_to listening chunks w1) = (events w1 ++ added)%list
      /\ events (feed_to listening chunks w2) = (events w2 ++ added)%list
      /\ self (feed_to listening chunks w1)
         = self (feed_to listening chunks w2).
Proof.
  induction chunks as [| c rest IH]; intros w1 w2 H.
  - exists []. cbn [feed_to]. rewrite !app_nil_r. auto.
  - cbn [feed_to]. rewrite !exec_on_data_to.
    destruct (IH (after_data_to listening c w1) (after_data_to listening c w2))
      as (added & H1 & H2 & H3).
    { unfold after_data_to. cbn [self]. rewrite H. reflexivity. }
    exists (events_to listening (self w2) 0
              (List.length (data_records (self w2) c))
              (data_records (self w2) c) ++ added)%list.
    rewrite H1, H2. split; [| split; [| exact H3]];
      unfold after_data_to; cbn [events]; rewrite ?H, <- !app_assoc;
      reflexivity.
Qed.

(** X14.  Errors of the stream handles.  With an ['error'] listener on
    the object the handlers return normally: an error of the input handle
    adds exactly one event (the error itself when the object has one
    handle, a text naming the input stream when it has two), an error of
    the output handle adds a text naming the output stream when the handles
    differ.  Without a listener [emit] throws instead and nothing is added:
    the error itself, or for a text the unhandled-error wrapper that quotes
    it.  In every case the object is left as it was, and the chunks
    delivered afterwards add the events and leave the object they would
    have added and left without the error. *)
Theorem stream_error_leaves_reader_intact (listening : bool) (w : World)
  (err : JsError) (chunks : list string) :
  let in_text := "Error in input stream: " ++ message err in
  let out_text := "Error in output stream: " ++ message err in
  let after_in := exec (on_streamIn_error_to listening err) w in
  let after_out := exec (on_streamOut_error_to listening err) w in
  on_streamIn_error_to listening err w
  = (if listening then Normal tt
     else Thrown (if separateStreams (self w)
                  then unhandled_error in_text else err),
     mkWorld (self w)
       (events w
        ++ (if listening
            then [if separateStreams (self w)
                  then EvStreamErrorText in_text else EvStreamError err]
            else []))%list
       (perf_calls w) (out w))
  /\ on_streamOut_error_to listening err w
     = (if separateStreams (self w) && negb listening
        then Thrown (unhandled_error out_text) else Normal tt,
        mkWorld (self w)
          (events w
           ++ (if separateStreams (self w) && listening
               then [EvStreamErrorText out_text] else []))%list
          (perf_calls w) (out w))
  /\ (exists added : list Event,
        events (feed_to listening chunks after_in)
        = (events after_in ++ added)%list
        /\ events (feed_to listening chunks w) = (events w ++ added)%list
        /\ self (feed_to listening chunks after_in)
           = self (feed_to listening chunks w))
  /\ (exists added : list Event,
        events (feed_to listening chunks after_out)
        = (events after_out ++ added)%list
        /\ events (feed_to listening chunks w) = (events w ++ added)%list
        /\ self (feed_to listening chunks after_out)
           = self (feed_to listening chunks w)).
Proof.
  intros in_text out_text after_in after_out.
  assert (Hin : on_streamIn_error_to listening err w
                = (if listening then Normal tt
                   else Thrown (if separateStreams (self w)
                                then unhandled_error in_text else err),
                   mkWorld (self w)
                     (events w
                      ++ (if listening
                          then [if separateStreams (self w)
                                then EvStreamErrorText in_text
                                else EvStreamError err]
                          else []))%list
                     (perf_calls w) (out w))).
  { destruct w as [o ev pc ou].
    unfold on_streamIn_error_to, emit_to, bind, get_self, emit, throw.
    cbn [self events perf_calls out].
    destruct (separateStreams o), listening; rewrite ?app_nil_r;
      reflexivity. }
  assert (Hout : on_streamOut_error_to listening err w
                 = (if separateStreams (self w) && negb listening
                    then Thrown (unhandled_error out_text) else Normal tt,
                    mkWorld (self w)
                      (events w
                       ++ (if separateStreams (self w) && listening
                           then [EvStreamErrorText out_text] else []))%list
                      (perf_calls w) (out w))).
  { destruct w as [o ev pc ou].
    unfold on_streamOut_error_to, emit_to, bind, get_self, emit, throw, ret.
    cbn [self events perf_calls out].
    destruct (separateStreams o), listening; rewrite ?app_nil_r;
      reflexivity. }
  split; [exact Hin |]. split; [exact Hout |]. split.
  - apply feed_to_frame. subst after_in. unfold exec. rewrite Hin.
    reflexivity.
  - apply feed_to_frame. subst after_out. unfold exec. rewrite Hout.
    reflexivity.
Qed.

(** ** The cut to [maxLineLength] *)

Lemma occurs_in_drop (sep : string) (k : nat) (s : string) :
  Js.occurs_in sep s = false -> Js.occurs_in sep (Js.drop k s) = false.
Proof.
  revert s; induction k as [| k IH]; intros s H; [exact H |].
  destruct s as [| a s]; [exact H |].
  cbn [Js.occurs_in] in H. apply orb_false_iff in H as [_ H].
  cbn [Js.drop]. apply IH, H.
Qed.

(** A text in which the delimiter does not occur is kept whole, and the
    loop has nothing to run over. *)
Lemma data_no_occurrence (o : JsonStream) (chunk : string) :
  Js.occurs_in (EOL o) (incoming o chunk) = false ->
  data_buffer o chunk = Some (incoming o chunk)
  /\ data_records o chunk = [].
Proof.
  intros Hno.
  pose proof (ends_with_no_occurrence _ _ Hno) as He.
  destruct (data_unterminated o chunk He) as [-> ->].
  assert (Hs : Js.split (incoming o chunk) (EOL o) = [incoming o chunk]).
  { unfold Js.split. destruct (EOL o) eqn:E.
    - rewrite occurs_in_empty_sep in Hno. discriminate.
    - apply split_scan_no_occurrence. exact Hno. }
  rewrite Hs. auto.
Qed.

Lemma incoming_cut (o : JsonStream) (chunk : string) :
  buffer_truthy o = true ->
  (0 <= maxLineLength o
   < Z.of_nat (String.length (pending o ++ chunk)))%Z ->
  incoming o chunk
  = Js.drop (String.length (pending o ++ chunk)
             - Z.to_nat (maxLineLength o))
            (pending o ++ chunk)
  /\ Z.of_nat (String.length (incoming o chunk)) = maxLineLength o.
Proof.
  intros Hb Hm. unfold incoming. rewrite Hb.
  destruct (Z.gtb_spec (Z.of_nat (String.length (pending o ++ chunk)))
                       (maxLineLength o)) as [_ | Hle]; [| lia].
  unfold Js.substring_from.
  replace (Z.to_nat (Z.of_nat (String.length (pending o ++ chunk))
                     - maxLineLength o))
    with (String.length (pending o ++ chunk) - Z.to_nat (maxLineLength o))
    by lia.
  split; [reflexivity |]. rewrite length_drop. lia.
Qed.

(** C2 (amended).  The cut to [maxLineLength] is made only when a
    non-empty buffer is prepended to the chunk.  In that case the buffer
    the handler leaves is at most [maxLineLength] long (empty for a
    negative maximum); and when the buffer followed by the chunk is longer
    than a non-negative maximum, the text the handler splits is exactly its
    last [maxLineLength] code units, so that, the delimiter not occurring
    in buffer and chunk, the pending buffer holds exactly these last
    [maxLineLength] code units and no event is emitted.  A chunk that
    arrives on an empty buffer is not cut: if the delimiter does not occur
    in it, the whole chunk becomes the pending buffer, whatever its length,
    and no event is emitted. *)
Theorem pending_buffer_cut (w : World) (chunk : string) :
  let o := self w in
  let w' := exec (on_data chunk) w in
  let text := pending o ++ chunk in
  let kept :=
    Js.drop (String.length text - Z.to_nat (maxLineLength o)) text in
  (buffer_truthy o = true ->
   (Z.of_nat (String.length (pending (self w')))
    <= Z.max 0 (maxLineLength o))%Z)
  /\ (buffer_truthy o = true ->
      (0 <= maxLineLength o < Z.of_nat (String.length text))%Z ->
      incoming o chunk = kept
      /\ Z.of_nat (String.length kept) = maxLineLength o
      /\ (Js.occurs_in (EOL o) text = false ->
          pending (self w') = kept /\ events w' = events w))
  /\ (buffer_truthy o = false ->
      Js.occurs_in (EOL o) chunk = false ->
      pending (self w') = chunk /\ events w' = events w).
Proof.
  intros o w' text kept. subst w' kept text. rewrite exec_on_data.
  unfold after_data. fold o. cbn [self events]. split; [| split].
  - intros Hb. pose proof (incoming_bounded o chunk Hb).
    pose proof (data_buffer_length o chunk). lia.
  - intros Hb Hm. destruct (incoming_cut o chunk Hb Hm) as [Hin Hlen].
    split; [exact Hin |]. split; [rewrite <- Hin; exact Hlen |].
    intros Hno.
    assert (Hno' : Js.occurs_in (EOL o) (incoming o chunk) = false)
      by (rewrite Hin; apply occurs_in_drop, Hno).
    destruct (data_no_occurrence o chunk Hno') as [Hbuf Hrec].
    unfold data_events. rewrite Hbuf, Hrec, Hin. simpl.
    rewrite app_nil_r. auto.
  - intros Hb Hno.
    assert (Hin : incoming o chunk = chunk)
      by (unfold incoming; rewrite Hb; reflexivity).
    assert (Hno' : Js.occurs_in (EOL o) (incoming o chunk) = false)
      by (rewrite Hin; exact Hno).
    destruct (data_no_occurrence o chunk Hno') as [Hbuf Hrec].
    unfold data_events. rewrite Hbuf, Hrec, Hin. simpl.
    rewrite app_nil_r. auto.
Qed.

(** ** Sequences of chunks none of which is cut *)

Lemma incoming_uncut (o : JsonStream) (chunk : string) :
  uncut o chunk = true -> incoming o chunk = pending o ++ chunk.
Proof.
  unfold uncut, incoming. destruct (buffer_truthy o) eqn:Hb; cbn [negb orb].
  - intros H. apply Z.leb_le in H.
    destruct (Z.gtb_spec (Z.of_nat (String.length (pending o ++ chunk)))
                         (maxLineLength o)); [lia | reflexivity].
  - intros _. rewrite (pending_not_truthy o Hb). reflexivity.
Qed.

Lemma never_cut_cons (c : string) (rest : list string) (w : World) :
  never_cut (c :: rest) w = true ->
  uncut (self w) c = true /\ never_cut rest (after_data c w) = true.
Proof.
  cbn [never_cut]. rewrite exec_on_data. intros H.
  apply andb_true_iff in H. exact H.
Qed.

Lemma lines_of_append (c : ascii) (x y : string) :
  removelast (Js.split_scan (eol1 c) 0 (x ++ y))
  = (removelast (Js.split_scan (eol1 c) 0 x)
     ++ removelast
          (Js.split_scan (eol1 c) 0
             (last (Js.split_scan (eol1 c) 0 x) "" ++ y)))%list
  /\ last (Js.split_scan (eol1 c) 0 (x ++ y)) ""
     = last (Js.split_scan (eol1 c) 0
               (last (Js.split_scan (eol1 c) 0 x) "" ++ y)) "".
Proof.
  rewrite (split_scan_append c x y).
  rewrite removelast_app by apply split_scan_nonempty.
  rewrite last_app_nonempty by apply split_scan_nonempty. auto.
Qed.

(** As [feed_stripped], with each invocation within the maximum instead of
    the whole text. *)
Lemma feed_stripped_uncut (c : ascii) (chunks : list string) :
  forall w : World,
    EOL (self w) = eol1 c ->
    preserveWhitespace (self w) = false ->
    Js.has_char c (pending (self w)) = false ->
    never_cut chunks w = true ->
    let segs :=
      Js.split_scan (eol1 c) 0 (pending (self w) ++ String.concat "" chunks) in
    map (strip_event (eol1 c)) (events (feed chunks w))
    = (map (strip_event (eol1 c)) (events w)
       ++ flat_map (line_events (self w)) (removelast segs))%list
    /\ pending (self (feed chunks w)) = last segs "".
Proof.
  induction chunks as [| c1 rest IH]; intros w HE Hpw HP Hcut segs.
  - subst segs. simpl String.concat. rewrite append_nil_r.
    rewrite (split_scan_free c _ HP). simpl. rewrite app_nil_r. auto.
  - subst segs. rewrite concat_cons.
    destruct (never_cut_cons c1 rest w Hcut) as [Hc1 Hrest].
    cbn [feed]. rewrite exec_on_data.
    set (o := self w) in *.
    pose proof (incoming_uncut o c1 Hc1) as Hin.
    pose proof (data_buffer_eol1 o c c1 HE) as HP1. rewrite Hin in HP1.
    specialize (IH (after_data c1 w)).
    assert (Hs : self (after_data c1 w) = with_buffer o (data_buffer o c1))
      by reflexivity.
    assert (He : events (after_data c1 w)
                 = (events w ++ data_events o c1)%list) by reflexivity.
    rewrite Hs, He, HP1 in IH.
    destruct IH as [IHe IHp];
      [exact HE | exact Hpw | apply split_scan_last_free | exact Hrest |].
    rewrite IHe, IHp.
    rewrite map_app, (data_events_stripped o c c1 HE Hpw), Hin.
    rewrite flat_map_line_events_with_buffer.
    rewrite <- append_assoc.
    destruct (lines_of_append c (pending o ++ c1) (String.concat "" rest))
      as [-> ->].
    rewrite flat_map_app, <- app_assoc. auto.
Qed.

Lemma decode_failure_empty : decode_failure "" = None.
Proof. reflexivity. Qed.

Lemma data_records_no_failure (o : JsonStream) (c : ascii) (chunk : string) :
  EOL o = eol1 c ->
  first_failure
    (removelast (Js.split_scan (eol1 c) 0 (incoming o chunk))) = None ->
  first_failure (data_records o chunk) = None.
Proof.
  intros HE H. rewrite (data_records_eol1 o c chunk HE).
  destruct (Js.ends_with (incoming o chunk) (eol1 c)) eqn:E; [| exact H].
  pose proof (split_scan_nonempty c (incoming o chunk)) as Hne.
  rewrite (app_removelast_last "" Hne).
  apply first_failure_app. split; [exact H |].
  apply ends_with_true in E as (p & ->).
  rewrite split_scan_terminated, last_last. reflexivity.
Qed.

(** Chunks none of whose lines fails to decode: the listener plays no
    part. *)
Lemma feed_to_no_failure (listening : bool) (c : ascii)
  (chunks : list string) :
  forall w : World,
    EOL (self w) = eol1 c ->
    never_cut chunks w = true ->
    listening = true
    \/ first_failure
         (removelast
            (Js.split_scan (eol1 c) 0
               (pending (self w) ++ String.concat "" chunks))) = None ->
    feed_to listening chunks w = feed chunks w.
Proof.
  induction chunks as [| c1 rest IH]; intros w HE Hcut Hl; [reflexivity |].
  destruct (never_cut_cons c1 rest w Hcut) as [Hc1 Hrest].
  pose proof (incoming_uncut (self w) c1 Hc1) as Hin.
  pose proof (data_buffer_eol1 (self w) c c1 HE) as HP1. rewrite Hin in HP1.
  assert (Hl' : listening = true
                \/ first_failure
                     (removelast
                        (Js.split_scan (eol1 c) 0 (pending (self w) ++ c1)))
                   = None
                   /\ first_failure
                        (removelast
                           (Js.split_scan (eol1 c) 0
                              (last (Js.split_scan (eol1 c) 0
                                       (pending (self w) ++ c1)) ""
                               ++ String.concat "" rest))) = None).
  { destruct Hl as [Hl | Hl]; [left; exact Hl | right].
    rewrite concat_cons, <- append_assoc in Hl.
    destruct (lines_of_append c (pending (self w) ++ c1)
                (String.concat "" rest)) as [Heq _].
    rewrite Heq in Hl. apply first_failure_app, Hl. }
  cbn [feed_to feed]. unfold exec at 1 2.
  rewrite on_data_to_no_failure.
  - fold (exec (on_data c1) w). rewrite exec_on_data. apply IH.
    + exact HE.
    + exact Hrest.
    + destruct Hl' as [Hl' | [_ Hl']]; [left; exact Hl' | right].
      change (self (after_data c1 w))
        with (with_buffer (self w) (data_buffer (self w) c1)).
      rewrite HP1. exact Hl'.
  - destruct Hl' as [Hl' | [Hl' _]]; [left; exact Hl' | right].
    apply (data_records_no_failure (self w) c c1 HE). rewrite Hin.
    exact Hl'.
Qed.

(** C1 (amended).  Reassembly does not depend on chunking, up to the
    delimiter of text payloads.  Take a delimiter of one code unit, white
    space not preserved, a pending buffer free of the delimiter, and chunks
    whose every invocation stays within [maxLineLength] (the buffer is
    empty or the buffer followed by the chunk is within the maximum), as
    does the invocation on their concatenation; and let the object have an
    ['error'] listener or no line of the text fail to decode.  Then the
    events of the chunks are those of their concatenation delivered as one
    chunk, once the trailing delimiter is removed from every text payload,
    and the same text stays pending.  Both are the events of the complete
    lines of the text. *)
Theorem chunking_invariance_stripped (listening : bool) (c : ascii)
  (chunks : list string) (w : World) :
  let whole := String.concat "" chunks in
  let lines :=
    removelast (Js.split (pending (self w) ++ whole) (EOL (self w))) in
  EOL (self w) = eol1 c ->
  preserveWhitespace (self w) = false ->
  Js.has_char c (pending (self w)) = false ->
  never_cut chunks w = true ->
  never_cut [whole] w = true ->
  listening = true \/ first_failure lines = None ->
  map (strip_event (eol1 c)) (events (feed_to listening chunks w))
  = map (strip_event (eol1 c)) (events (feed_to listening [whole] w))
  /\ pending (self (feed_to listening chunks w))
     = pending (self (feed_to listening [whole] w))
  /\ map (strip_event (eol1 c)) (events (feed_to listening chunks w))
     = (map (strip_event (eol1 c)) (events w)
        ++ flat_map (line_events (self w)) lines)%list.
Proof.
  intros whole lines HE Hpw HP Hcut Hcut1 Hl. subst lines.
  rewrite HE, split_eol1 in *.
  rewrite (feed_to_no_failure listening c chunks w HE Hcut Hl).
  assert (Hl1 : listening = true
                \/ first_failure
                     (removelast
                        (Js.split_scan (eol1 c) 0
                           (pending (self w) ++ String.concat "" [whole])))
                   = None) by exact Hl.
  rewrite (feed_to_no_failure listening c [whole] w HE Hcut1 Hl1).
  destruct (feed_stripped_uncut c chunks w HE Hpw HP Hcut) as [E1 P1].
  destruct (feed_stripped_uncut c [whole] w HE Hpw HP Hcut1) as [E2 P2].
  cbn [String.concat] in E2, P2. fold whole in E1, P1.
  repeat split; congruence.
Qed.

(** *** Lines that all pass the pre-check *)

Lemma records_events_app (o : JsonStream) (a b : list string) :
  forall idx len,
    records_events o idx len (a ++ b)
    = (records_events o idx len a
       ++ records_events o (idx + List.length a) len b)%list.
Proof.
  induction a as [| r a IH]; intros idx len.
  - cbn [app records_events List.length]. rewrite Nat.add_0_r. reflexivity.
  - cbn [app records_events List.length]. rewrite IH, <- app_assoc.
    replace (S idx + List.length a) with (idx + S (List.length a)) by lia.
    reflexivity.
Qed.

Lemma records_events_json (o : JsonStream) (records : list string) :
  Forall (fun l => Js.match_record l = true) records ->
  forall idx len,
    records_events o idx len records = flat_map parse_events records.
Proof.
  intros H. induction H as [| r rest Hr _ IH]; intros idx len;
    [reflexivity |].
  cbn [records_events flat_map]. rewrite IH. unfold record_events.
  rewrite Hr. reflexivity.
Qed.

Lemma data_events_json (o : JsonStream) (c : ascii) (chunk : string) :
  EOL o = eol1 c ->
  Forall (fun l => Js.match_record l = true)
         (removelast (Js.split_scan (eol1 c) 0 (incoming o chunk))) ->
  data_events o chunk
  = flat_map parse_events
      (removelast (Js.split_scan (eol1 c) 0 (incoming o chunk))).
Proof.
  intros HE HF. unfold data_events. rewrite (data_records_eol1 o c chunk HE).
  destruct (Js.ends_with (incoming o chunk) (eol1 c)) eqn:E;
    [| apply records_events_json, HF].
  pose proof (split_scan_nonempty c (incoming o chunk)) as Hne.
  assert (Hl : last (Js.split_scan (eol1 c) 0 (incoming o chunk)) "" = "").
  { apply ends_with_true in E as (p & ->).
    rewrite split_scan_terminated. apply last_last. }
  rewrite (app_removelast_last "" Hne), Hl at 1 2.
  rewrite records_events_app, (records_events_json o _ HF).
  rewrite length_app. cbn [List.length records_events].
  unfold record_events, text_events. cbn [Js.match_record Js.match_nonspace].
  replace (Nat.ltb
             (0 + List.length
                    (removelast
                       (Js.split_scan (eol1 c) 0 (incoming o chunk))))
             (List.length
                (removelast (Js.split_scan (eol1 c) 0 (incoming o chunk)))
              + 1 - 1))
    with false by (symmetry; apply Nat.ltb_ge; lia).
  destruct (preserveWhitespace o); cbn; rewrite !app_nil_r; reflexivity.
Qed.

(** Chunks all of whose lines pass the pre-check: the events are exactly
    those of the decode attempts, line by line. *)
Lemma feed_json_uncut (c : ascii) (chunks : list string) :
  forall w : World,
    EOL (self w) = eol1 c ->
    Js.has_char c (pending (self w)) = false ->
    never_cut chunks w = true ->
    let segs :=
      Js.split_scan (eol1 c) 0 (pending (self w) ++ String.concat "" chunks) in
    Forall (fun l => Js.match_record l = true) (removelast segs) ->
    events (feed chunks w)
    = (events w ++ flat_map parse_events (removelast segs))%list
    /\ pending (self (feed chunks w)) = last segs "".
Proof.
  induction chunks as [| c1 rest IH]; intros w HE HP Hcut segs HF.
  - subst segs. simpl String.concat. rewrite append_nil_r.
    rewrite (split_scan_free c _ HP). simpl. rewrite app_nil_r. auto.
  - subst segs. rewrite concat_cons in *.
    destruct (never_cut_cons c1 rest w Hcut) as [Hc1 Hrest].
    cbn [feed]. rewrite exec_on_data.
    set (o := self w) in *.
    pose proof (incoming_uncut o c1 Hc1) as Hin.
    pose proof (data_buffer_eol1 o c c1 HE) as HP1. rewrite Hin in HP1.
    rewrite <- append_assoc in *.
    destruct (lines_of_append c (pending o ++ c1) (String.concat "" rest))
      as [Hlines Hlast].
    rewrite Hlines in HF. apply Forall_app in HF as [HF1 HF2].
    specialize (IH (after_data c1 w)).
    assert (Hs : self (after_data c1 w) = with_buffer o (data_buffer o c1))
      by reflexivity.
    assert (He : events (after_data c1 w)
                 = (events w ++ data_events o c1)%list) by reflexivity.
    rewrite Hs, He, HP1 in IH.
    destruct IH as [IHe IHp];
      [exact HE | apply split_scan_last_free | exact Hrest | exact HF2 |].
    rewrite IHe, IHp, Hlines, Hlast.
    rewrite (data_events_json o c c1 HE) by (rewrite Hin; exact HF1).
    rewrite Hin, flat_map_app, <- app_assoc. auto.
Qed.

(** C6 (amended).  Round trip.  Let [json] serialise to [s], a text that
    passes the pre-check (the text of an object starts with a brace), that
    decodes back to [json] (a JSON-representable value), truthy as every
    object is; let the delimiter of writer and reader be the same single
    code unit, which does not occur in [s].  Then [write] puts exactly [s]
    followed by the delimiter on the output handle; and these bytes, cut
    into chunks in any way and delivered to a reader with an empty buffer
    that no invocation makes cut the text (the buffer is empty or buffer
    and chunk are within [maxLineLength]), give exactly one json event,
    carrying [json], and leave nothing pending, with or without an
    ['error'] listener. *)
Theorem write_read_round_trip (listening : bool)
  (writer reader : JsonStream) (c : ascii) (json : Value) (s : string)
  (callback : option Callback) (chunks : list string) :
  JSON_stringify json = Normal (Some s) ->
  JSON_parse s = Normal json ->
  truthy json = true ->
  Js.match_record s = true ->
  Js.has_char c s = false ->
  EOL writer = eol1 c -> EOL reader = eol1 c ->
  buffer_truthy reader = false ->
  let written := map fst (out (exec (write json callback) (new_World writer))) in
  String.concat "" chunks = String.concat "" written ->
  never_cut chunks (new_World reader) = true ->
  written = [s ++ eol1 c]
  /\ events (feed_to listening chunks (new_World reader)) = [EvJson json]
  /\ pending (self (feed_to listening chunks (new_World reader))) = "".
Proof.
  intros Hs Hp Ht Hm Hc Hw Hr Hb written Hcat Hcut.
  assert (Hwritten : written = [s ++ eol1 c]).
  { subst written. unfold exec.
    destruct (write_forwards_and_returns_signal_aux
                (new_World writer) json callback s Hs) as (_ & -> & _).
    cbn [new_World out self app map fst]. rewrite Hw. reflexivity. }
  split; [exact Hwritten |].
  rewrite Hwritten in Hcat. cbn [String.concat] in Hcat.
  assert (HP : pending (self (new_World reader)) = "")
    by apply (pending_not_truthy reader Hb).
  assert (Hsegs : Js.split_scan (eol1 c) 0
                    (pending (self (new_World reader))
                     ++ String.concat "" chunks)
                  = [s; ""]).
  { rewrite HP, Hcat. cbn [append].
    rewrite split_scan_terminated, (split_scan_free c s Hc). reflexivity. }
  assert (Hfail : decode_failure s = None)
    by (unfold decode_failure; rewrite Hm, Hp; reflexivity).
  rewrite (feed_to_no_failure listening c chunks (new_World reader) Hr Hcut).
  - destruct (feed_json_uncut c chunks (new_World reader) Hr) as [He Hpend].
    + rewrite HP. reflexivity.
    + exact Hcut.
    + rewrite Hsegs. cbn [removelast]. constructor; [exact Hm | constructor].
    + rewrite He, Hpend, Hsegs. cbn [removelast last flat_map new_World
                                     events app].
      unfold parse_events. rewrite Hp, Ht. auto.
  - right. rewrite Hsegs. cbn [removelast first_failure]. rewrite Hfail.
    reflexivity.
Qed.

(** *** The pre-check *)




End JsonStreamModel.

Arguments EvJson {Value} value.
Arguments EvText {Value} text.
Arguments EvParseError {Value} err record.
Arguments EvStreamError {Value} err.
Arguments EvStreamErrorText {Value} text.
Arguments EvEnd {Value}.
Arguments mkWorld {Value Callback} self events perf_calls out.
Arguments self {Value Callback} w.
Arguments events {Value Callback} w.
Arguments perf_calls {Value Callback} w.
Arguments out {Value Callback} w.
Arguments new_World {Value Callback} o.
Arguments exec {Value Callback A} m w.
Arguments on_end {Value Callback} _.
Arguments on_data {Value} truthy JSON_parse {Callback} chunk _.
Arguments feed {Value} truthy JSON_parse {Callback} chunks w.
Arguments write {Value} JSON_stringify {Callback} stream_write json callback _.
Arguments strip_event {Value} eol e.

(** ** The model on the reference codec *)

Module Reference.

(** A world whose values are those of the reference codec and whose output
    handle takes no callbacks. *)
Definition World : Type := World RefJSON.value unit.

(** An output handle that reports saturation for a text of 16384 code
    units or more. *)
Definition signal (written : list (string * option unit)) (text : string)
  : bool :=
  (Z.of_nat (String.length text) <? 16384)%Z.

Definition fresh (o : JsonStream) : World := new_World o.

Definition on_data (chunk : string) : M RefJSON.value unit unit :=
  on_data RefJSON.truthy RefJSON.parse chunk.

Definition feed (chunks : list string) (w : World) : World :=
  feed RefJSON.truthy RefJSON.parse chunks w.

Definition write (json : RefJSON.value) : M RefJSON.value unit bool :=
  write RefJSON.stringify signal json None.

End Reference.

(** ** The specified properties on concrete inputs *)

(** C1, as stated, fails: the chunks [hello LF wor] and [ld LF] give the
    text events [hello] and [world LF], their concatenation as one chunk
    gives [hello LF] and [world LF]. *)
Lemma chunking_changes_text_payload :
  let reader := Reference.fresh (new_JsonStream false) in
  let chunks := ["hello" ++ Js.LF ++ "wor"; "ld" ++ Js.LF] in
  events (Reference.feed chunks reader)
  = [EvText "hello"; EvText ("world" ++ Js.LF)]
  /\ events (Reference.feed [String.concat "" chunks] reader)
     = [EvText ("hello" ++ Js.LF); EvText ("world" ++ Js.LF)]
  /\ events (Reference.feed chunks reader)
     <> events (Reference.feed [String.concat "" chunks] reader).
Proof.
  repeat split; try reflexivity. vm_compute. discriminate.
Qed.

(** C2, as stated, fails: with a maximum of 4, a reader as constructed
    that receives the chunk [abcdefgh] holds all 8 code units in its
    buffer, not the last 4. *)
Lemma oversized_first_chunk_is_kept_whole :
  let reader :=
    Reference.fresh (mkJsonStream None false false 4 Js.LF false) in
  let after := exec (Reference.on_data "abcdefgh") reader in
  pending (self after) = "abcdefgh"
  /\ pending (self after) <> "efgh"
  /\ ~ (Z.of_nat (String.length (pending (self after)))
        <= maxLineLength (self after))%Z
  /\ events after = [].
Proof.
  repeat split; try reflexivity; vm_compute; [discriminate | auto].
Qed.

(** C4, as stated, fails: with the delimiter [ab] and a maximum of 1, a
    reader holding [x] that receives the chunk [ab], which ends exactly on
    the delimiter, is left with [b] in its buffer. *)
Lemma terminated_chunk_can_leave_a_tail :
  let reader :=
    Reference.fresh (mkJsonStream (Some "x") false false 1 "ab" false) in
  let after := exec (Reference.on_data "ab") reader in
  Js.ends_with "ab" (EOL (self reader)) = true
  /\ pending (self after) = "b"
  /\ pending (self after) <> "".
Proof.
  repeat split; try reflexivity. vm_compute. discriminate.
Qed.

Lemma partial_tail_retention_witness :
  let reader := Reference.fresh (new_JsonStream false) in
  let after :=
    exec (Reference.on_data ("hello" ++ Js.LF ++ "wor")) reader in
  (buffer (self after) = Some "wor" /\ events after = [EvText "hello"])
  /\ pending (self (exec (Reference.on_data ("ld" ++ Js.LF)) after)) = "".
Proof.
  intros reader after. split.
  - apply (proj1 (partial_tail_retention
                    RefJSON.value RefJSON.truthy RefJSON.parse unit
                    reader ("hello" ++ Js.LF ++ "wor")));
      [reflexivity | vm_compute; lia].
  - apply (proj2 (partial_tail_retention
                    RefJSON.value RefJSON.truthy RefJSON.parse unit
                    after ("ld" ++ Js.LF)));
      [reflexivity | right; vm_compute; discriminate].
Defined.

Lemma end_drops_partial_line_witness :
  let reader := Reference.fresh (new_JsonStream false) in
  let chunk := "hello" ++ Js.LF ++ Js.dquotes "{'a':" in
  let ended := exec on_end (exec (Reference.on_data chunk) reader) in
  events ended = [EvText "hello"; EvEnd]
  /\ buffer (self ended) = Some (Js.dquotes "{'a':").
Proof.
  intros reader chunk ended.
  apply (end_drops_partial_line
           RefJSON.value RefJSON.truthy RefJSON.parse unit reader chunk);
    [reflexivity | vm_compute; lia].
Defined.

Lemma write_propagates_serialization_failure_witness :
  let value := RefJSON.Obj [("n", RefJSON.BigInt 1)] in
  let writer := Reference.fresh (new_JsonStream false) in
  fst (Reference.write value writer) = Thrown RefJSON.bigint_error
  /\ out (snd (Reference.write value writer)) = [].
Proof.
  intros value writer.
  destruct (write_propagates_serialization_failure
              RefJSON.value RefJSON.stringify unit Reference.signal
              writer value None RefJSON.bigint_error eq_refl)
    as (Hthrown & Hout & _).
  split; [exact Hthrown | exact Hout].
Defined.

Lemma write_forwards_and_returns_signal_witness :
  let value := RefJSON.Obj [("ok", RefJSON.Bool true)] in
  let writer := Reference.fresh (new_JsonStream false) in
  fst (Reference.write value writer) = Normal true
  /\ out (snd (Reference.write value writer))
     = [(Js.dquotes "{'ok':true}" ++ Js.LF, None)].
Proof.
  intros value writer.
  destruct (write_forwards_and_returns_signal
              RefJSON.value RefJSON.stringify unit Reference.signal
              writer value None (Js.dquotes "{'ok':true}") eq_refl)
    as (Hsignal & Hout & _).
  split; [exact Hsignal | exact Hout].
Defined.


(** ** Further properties on concrete inputs *)

Lemma pending_never_contains_delimiter_witness :
  let reader :=
    Reference.fresh
      (mkJsonStream (Some "xa") false false (1024 * 1024) "ab" false) in
  let after := exec (Reference.on_data "bya") reader in
  Js.occurs_in "ab" (pending (self after)) = false
  /\ pending (self after) = "ya".
Proof.
  intros reader after. split; [| reflexivity].
  apply (pending_never_contains_delimiter
           RefJSON.value RefJSON.truthy RefJSON.parse unit reader "bya").
  discriminate.
Defined.

Lemma chunk_without_delimiter_accumulates_witness :
  let reader :=
    Reference.fresh
      (mkJsonStream (Some (Js.dquotes "{'a':")) false false (1024 * 1024)
                    Js.LF false) in
  let after := exec (Reference.on_data "1") reader in
  pending (self after) = Js.dquotes "{'a':1" /\ events after = [].
Proof.
  intros reader after.
  apply (chunk_without_delimiter_accumulates
           RefJSON.value RefJSON.truthy RefJSON.parse unit reader "1");
    [reflexivity | vm_compute; discriminate].
Defined.

Lemma overflow_keeps_last_code_units_witness :
  let o := mkJsonStream (Some "abc") false false 4 Js.LF false in
  incoming o "defgh" = "efgh"
  /\ Z.of_nat (String.length (incoming o "defgh")) = 4%Z.
Proof.
  intros o. split; [reflexivity |].
  apply (overflow_keeps_last_code_units o "defgh");
    [reflexivity | vm_compute; discriminate | reflexivity].
Defined.

Lemma handler_cuts_text_into_lines_witness :
  let reader := Reference.fresh (new_JsonStream false) in
  let chunk := "hello" ++ Js.LF ++ "wor" in
  let after := exec (Reference.on_data chunk) reader in
  pending (self after) = "wor"
  /\ exists lines,
       chunk = Js.unlines Js.LF lines "wor"
       /\ map (strip_event Js.LF) (events after)
          = flat_map
              (line_events RefJSON.value RefJSON.truthy RefJSON.parse
                 (new_JsonStream false))
              lines.
Proof.
  intros reader chunk after. split; [reflexivity |].
  destruct (handler_cuts_text_into_lines
              RefJSON.value RefJSON.truthy RefJSON.parse unit
              "010"%char reader chunk eq_refl)
    as (lines & Htext & _ & _ & Hev).
  exists lines. split; [exact Htext | exact (Hev eq_refl)].
Defined.

Lemma blank_input_is_silent_witness :
  let reader := Reference.fresh (new_JsonStream false) in
  let chunks := ["  " ++ Js.LF; "   " ++ Js.LF ++ Js.LF ++ " "] in
  events (Reference.feed chunks reader) = []
  /\ perf_calls (Reference.feed chunks reader) = []
  /\ pending (self (Reference.feed chunks reader)) = " ".
Proof.
  intros reader chunks.
  assert (Hblank : Forall (fun c => Js.match_nonspace c = false) chunks)
    by (repeat constructor).
  destruct (blank_input_is_silent
              RefJSON.value RefJSON.truthy RefJSON.parse unit chunks reader
              eq_refl eq_refl Hblank)
    as (He & Hp & _).
  split; [exact He | split; [exact Hp | reflexivity]].
Defined.

Lemma reader_bytes_counter_bounded_witness :
  let reader := Reference.fresh (setPerf true (new_JsonStream false)) in
  let chunks :=
    [Js.dquotes "{'a':"; "1}" ++ Js.LF ++ "text" ++ Js.LF ++ "{"] in
  counted "json_stream_bytes_read"
    (perf_calls (Reference.feed chunks reader)) = 8%Z
  /\ (counted "json_stream_bytes_read"
        (perf_calls (Reference.feed chunks reader))
      + Z.of_nat (String.length (pending (self (Reference.feed chunks reader))))
      <= 0 + 0 + 14)%Z.
Proof.
  intros reader chunks. split; [reflexivity |].
  apply (reader_bytes_counter_bounded
           RefJSON.value RefJSON.truthy RefJSON.parse unit
           "010"%char chunks reader).
  reflexivity.
Defined.


Lemma writer_recorder_accounting_witness :
  let writer := Reference.fresh (setPerf true (new_JsonStream false)) in
  let value := RefJSON.Obj [("ok", RefJSON.Bool true)] in
  let after := snd (Reference.write value writer) in
  (counted "json_stream_bytes_written" (perf_calls after) - 0 = 12)%Z
  /\ (counted "json_stream_msgs_written" (perf_calls after) - 0 = 1)%Z.
Proof.
  intros writer value after.
  destruct (writer_recorder_accounting
              RefJSON.value RefJSON.stringify unit Reference.signal
              writer value None (Js.dquotes "{'ok':true}") eq_refl eq_refl)
    as (Hbytes & Hmsgs & _).
  split; [exact Hbytes | exact Hmsgs].
Defined.

Lemma write_of_undefined_text_witness :
  let plain := Reference.fresh (new_JsonStream false) in
  let recorded := Reference.fresh (setPerf true (new_JsonStream false)) in
  (fst (Reference.write RefJSON.Undefined plain) = Normal true
   /\ out (snd (Reference.write RefJSON.Undefined plain))
      = [("undefined" ++ Js.LF, None)])
  /\ (fst (Reference.write RefJSON.Undefined recorded)
      = Thrown undefined_length_error
      /\ out (snd (Reference.write RefJSON.Undefined recorded)) = []).
Proof.
  intros plain recorded.
  destruct (proj1 (write_of_undefined_text
                     RefJSON.value RefJSON.stringify unit Reference.signal
                     plain RefJSON.Undefined None eq_refl) eq_refl)
    as (Hsignal & Hout & _).
  destruct (proj2 (write_of_undefined_text
                     RefJSON.value RefJSON.stringify unit Reference.signal
                     recorded RefJSON.Undefined None eq_refl) eq_refl)
    as (Hthrown & Hnone & _).
  split; split; assumption.
Defined.

Lemma write_failure_leaves_span_open_witness :
  let writer := Reference.fresh (setPerf true (new_JsonStream false)) in
  let value := RefJSON.Arr [RefJSON.BigInt 7] in
  perf_calls (snd (Reference.write value writer))
  = [PerfBegin "json_stream_compose"].
Proof.
  intros writer value.
  apply (write_failure_leaves_span_open
           RefJSON.value RefJSON.stringify unit Reference.signal
           writer value None RefJSON.bigint_error).
  reflexivity.
Defined.

Lemma round_trip_under_any_chunking_witness :
  let values :=
    [RefJSON.Obj [("a", RefJSON.Num 1)];
     RefJSON.Obj [("ok", RefJSON.Bool true)]] in
  let chunks :=
    [Js.dquotes "{'a'"; Js.dquotes ":1}" ++ Js.LF ++ Js.dquotes "{'ok':tr";
     "ue}" ++ Js.LF] in
  events (Reference.feed chunks (Reference.fresh (new_JsonStream false)))
  = map EvJson values.
Proof.
  intros values chunks.
  assert (Hframes :
            Forall2 (frames_as RefJSON.value RefJSON.truthy RefJSON.parse
                       RefJSON.stringify "010"%char)
                    values
                    [Js.dquotes "{'a':1}"; Js.dquotes "{'ok':true}"]).
  { repeat constructor. }
  apply (round_trip_under_any_chunking
           RefJSON.value RefJSON.truthy RefJSON.parse RefJSON.stringify
           unit Reference.signal "010"%char values
           [Js.dquotes "{'a':1}"; Js.dquotes "{'ok':true}"] chunks
           (new_JsonStream false) (new_JsonStream false) Hframes);
    [reflexivity | reflexivity | reflexivity | reflexivity | reflexivity
    | vm_compute; discriminate].
Defined.

Lemma empty_delimiter_buffers_nothing_witness :
  let reader :=
    Reference.fresh
      (mkJsonStream None false false (1024 * 1024) "" false) in
  let after := exec (Reference.on_data "ab c") reader in
  pending (self after) = ""
  /\ data_records (self reader) "ab c" = ["a"; "b"; " "; "c"].
Proof.
  intros reader after.
  destruct (empty_delimiter_buffers_nothing
              RefJSON.value RefJSON.truthy RefJSON.parse unit reader "ab c"
              eq_refl)
    as (Hp & Hr & _).
  split; [exact Hp | exact Hr].
Defined.

Lemma nonpositive_maximum_discards_witness :
  let reader :=
    Reference.fresh (mkJsonStream (Some "abc") false false 0 Js.LF false) in
  let after := exec (Reference.on_data ("def" ++ Js.LF)) reader in
  events after = [] /\ pending (self after) = "".
Proof.
  intros reader after.
  apply (nonpositive_maximum_discards
           RefJSON.value RefJSON.truthy RefJSON.parse unit reader
           ("def" ++ Js.LF));
    [vm_compute; discriminate | reflexivity].
Defined.


(** ** Isolation of a decode failure

    Two decoders are compared on the same object and chunks: [parse], which
    fails on the record [r], and [parse'], which differs from it on [r]
    only and decodes [r] to a falsy value, for which the handler emits
    nothing. *)

Section Isolation.

Variable Value : Type.
Variable truthy : Value -> bool.
Variables parse parse' : string -> Completion Value.
Variable Callback : Type.
Variable inspect : string -> string.
Variable r : string.

(** The error events of the record [r]. *)
Definition error_of (e : Event Value) : bool :=
  match e with
  | EvParseError _ record => String.eqb record r
  | _ => false
  end.

Definition but_errors_of_r (l : list (Event Value)) : list (Event Value) :=
  filter (fun e => negb (error_of e)) l.

Variable failure : JsError.
Variable skipped : Value.
Hypothesis parse_fails : parse r = Thrown failure.
Hypothesis skipped_falsy : truthy skipped = false.
Hypothesis parse'_skips : parse' r = Normal skipped.
Hypothesis parse'_elsewhere : forall s : string, s <> r -> parse' s = parse s.

Lemma record_events_skipped (o : JsonStream) (idx len : nat) (x : string) :
  record_events Value truthy parse' o idx len x
  = but_errors_of_r (record_events Value truthy parse o idx len x).
Proof.
  unfold record_events, but_errors_of_r.
  destruct (Js.match_record x) eqn:Hm.
  - unfold parse_events. destruct (String.eqb_spec x r) as [-> | Hne].
    + rewrite parse'_skips, parse_fails, skipped_falsy.
      cbn [filter error_of negb]. rewrite String.eqb_refl. reflexivity.
    + rewrite (parse'_elsewhere x Hne).
      destruct (parse x) as [v | e]; [destruct (truthy v); reflexivity |].
      cbn [filter error_of negb].
      destruct (String.eqb_spec x r); [congruence | reflexivity].
  - unfold text_events.
    destruct (preserveWhitespace o || Js.match_nonspace x); [| reflexivity].
    cbv zeta. destruct (_ =? ""); reflexivity.
Qed.

Lemma records_events_skipped (o : JsonStream) (records : list string) :
  forall idx len,
    records_events Value truthy parse' o idx len records
    = but_errors_of_r (records_events Value truthy parse o idx len records).
Proof.
  induction records as [| x rest IH]; intros idx len; [reflexivity |].
  cbn [records_events]. unfold but_errors_of_r in *.
  rewrite filter_app, <- IH, <- record_events_skipped. reflexivity.
Qed.

Lemma feed_events_skipped (chunks : list string) :
  forall o,
    feed_events Value truthy parse' o chunks
    = but_errors_of_r (feed_events Value truthy parse o chunks).
Proof.
  induction chunks as [| c rest IH]; intros o; [reflexivity |].
  cbn [feed_events]. unfold but_errors_of_r in *.
  rewrite filter_app, <- IH. unfold data_events.
  rewrite records_events_skipped. reflexivity.
Qed.

Lemma feed_self_any_decoder (chunks : list string) :
  forall w1 w2 : World Value Callback,
    self w1 = self w2 ->
    self (feed truthy parse' chunks w1) = self (feed truthy parse chunks w2).
Proof.
  induction chunks as [| c rest IH]; intros w1 w2 H; [exact H |].
  cbn [feed]. apply IH. rewrite !exec_on_data. unfold after_data.
  cbn [self]. rewrite H. reflexivity.
Qed.

(** C3 (amended).  Isolation of a decode failure, on an object with an
    ['error'] listener.  For every object, delimiter and sequence of
    chunks: when decoding the record [r] fails, the events are, apart from
    the error events that carry [r], exactly the events of the same chunks
    when [r] decodes to a value for which nothing is emitted, and the
    object is left the same; the records before and after a failing one, in
    the same chunk and in later chunks, give the events they give without
    the failure, in the same order.  In particular a reader as constructed
    that is fed [{bad json}], [hello] and the text of [{ok: true}], each
    followed by a line feed, in one chunk or in three, emits in order the
    error event with the line [{bad json}], the text event [hello] with its
    line feed and the json event with the decoded value. *)
Theorem decode_failure_is_isolated (chunks : list string)
  (w : World Value Callback) (separate : bool) (e : JsError) (v : Value) :
  (exists added : list (Event Value),
     events (feed_to Value truthy parse Callback inspect true chunks w)
     = (events w ++ added)%list
     /\ events (feed_to Value truthy parse' Callback inspect true chunks w)
        = (events w ++ but_errors_of_r added)%list
     /\ self (feed_to Value truthy parse' Callback inspect true chunks w)
        = self (feed_to Value truthy parse Callback inspect true chunks w))
  /\ (parse "{bad json}" = Thrown e ->
      parse (Js.dquotes "{'ok':true}") = Normal v ->
      truthy v = true ->
      let bad := "{bad json}" ++ Js.LF in
      let hello := "hello" ++ Js.LF in
      let ok := Js.dquotes "{'ok':true}" ++ Js.LF in
      let expected :=
        [EvParseError (mkError ("JSON Parse Error: " ++ message e))
           "{bad json}";
         EvText ("hello" ++ Js.LF);
         EvJson v] in
      events (feed_to Value truthy parse Callback inspect true
                [bad ++ hello ++ ok] (new_World (new_JsonStream separate)))
      = expected
      /\ events (feed_to Value truthy parse Callback inspect true
                   [bad; hello; ok] (new_World (new_JsonStream separate)))
         = expected).
Proof.
  split.
  - exists (feed_events Value truthy parse (self w) chunks).
    rewrite !feed_to_listening.
    destruct (feed_events_run Value truthy parse Callback chunks w)
      as (-> & _).
    destruct (feed_events_run Value truthy parse' Callback chunks w)
      as (-> & _).
    rewrite feed_events_skipped.
    repeat split. apply feed_self_any_decoder. reflexivity.
  - intros Hbad Hok Ht bad hello ok expected.
    subst bad hello ok expected. rewrite !feed_to_listening.
    cbn [feed]. rewrite !exec_on_data.
    vm_compute in Hok.
    split; vm_compute; rewrite Hbad; vm_compute; rewrite Hok, Ht;
      reflexivity.
Qed.

End Isolation.


(** ** The reference codec on objects with or without a listener *)

Module ReferenceTo.

(** The way the platform prints a text without quotes or control
    characters. *)
Definition inspect (s : string) : string := "'" ++ s ++ "'".

Definition on_data (listening : bool) (chunk : string)
  : M RefJSON.value unit unit :=
  on_data_to RefJSON.value RefJSON.truthy RefJSON.parse unit inspect
    listening chunk.

Definition feed (listening : bool) (chunks : list string)
  (w : Reference.World) : Reference.World :=
  feed_to RefJSON.value RefJSON.truthy RefJSON.parse unit inspect
    listening chunks w.

End ReferenceTo.

(** C3, as stated, fails on an object without an ['error'] listener: the
    handler throws at [{bad json}], and neither the text event of [hello]
    nor the json event of [{ok: true}] is emitted. *)
Lemma siblings_lost_without_listener :
  let reader := Reference.fresh (new_JsonStream false) in
  let input :=
    "{bad json}" ++ Js.LF ++ "hello" ++ Js.LF
    ++ Js.dquotes "{'ok':true}" ++ Js.LF in
  fst (ReferenceTo.on_data false input reader)
  = Thrown (mkError "JSON Parse Error: Unexpected token in JSON")
  /\ events (ReferenceTo.feed false [input] reader) = []
  /\ events (ReferenceTo.feed false [input] reader)
     <> [EvParseError (mkError "JSON Parse Error: Unexpected token in JSON")
           "{bad json}";
         EvText ("hello" ++ Js.LF);
         EvJson (RefJSON.Obj [("ok", RefJSON.Bool true)])].
Proof.
  repeat split. vm_compute. discriminate.
Qed.

(** C6, as stated, fails when the bytes written arrive in two chunks at a
    reader whose maximum is 8: the text is cut, and its rest is emitted as
    a text event. *)
Lemma cut_round_trip_loses_the_value :
  let value :=
    RefJSON.Obj [("a", RefJSON.Num 1);
                 ("b", RefJSON.Arr [RefJSON.Num 1; RefJSON.Null])] in
  let writer := Reference.fresh (new_JsonStream false) in
  let reader :=
    Reference.fresh (mkJsonStream None false false 8 Js.LF false) in
  let written := map fst (out (exec (Reference.write value) writer)) in
  let chunks :=
    [Js.dquotes "{'a':1,'b'"; Js.dquotes ":[1,null]}" ++ Js.LF] in
  String.concat "" chunks = String.concat "" written
  /\ events (Reference.feed chunks reader)
     = [EvText (",null]}" ++ Js.LF)]
  /\ events (Reference.feed chunks reader) <> [EvJson value].
Proof.
  repeat split. vm_compute. discriminate.
Qed.

(** C7, as stated, fails: with the delimiter [aaa], the chunks [aa] and
    [aa], neither of which ends with the delimiter, make the handler emit
    the text event [a] for the unterminated rest and leave nothing pending
    before the end of input. *)
Lemma unterminated_rest_can_be_emitted :
  let reader :=
    Reference.fresh
      (mkJsonStream None false false (1024 * 1024) "aaa" false) in
  let ended := exec on_end (Reference.feed ["aa"; "aa"] reader) in
  Js.ends_with "aa" "aaa" = false
  /\ events ended = [EvText "a"; EvEnd]
  /\ pending (self ended) = "".
Proof.
  repeat split.
Qed.

(** C10, as stated, fails on an object without an ['error'] listener: the
    handler throws the parse error on a record that fails to decode. *)
Lemma handler_throws_without_listener :
  let reader := Reference.fresh (new_JsonStream false) in
  fst (ReferenceTo.on_data false ("{bad json}" ++ Js.LF) reader)
  = Thrown (mkError "JSON Parse Error: Unexpected token in JSON")
  /\ fst (ReferenceTo.on_data false ("{bad json}" ++ Js.LF) reader)
     <> Normal tt.
Proof.
  split; [reflexivity | vm_compute; discriminate].
Qed.


Lemma chunking_invariance_stripped_witness :
  let reader :=
    Reference.fresh (mkJsonStream None false false 8 Js.LF false) in
  let chunks :=
    ["ab" ++ Js.LF ++ "c"; "d" ++ Js.LF ++ "ef" ++ Js.LF; "{x}" ++ Js.LF] in
  map (strip_event Js.LF) (events (ReferenceTo.feed true chunks reader))
  = [EvText "ab"; EvText "cd"; EvText "ef";
     EvParseError (mkError "JSON Parse Error: Unexpected token in JSON")
       "{x}"]
  /\ map (strip_event Js.LF) (events (ReferenceTo.feed true chunks reader))
     = map (strip_event Js.LF)
         (events (ReferenceTo.feed true [String.concat "" chunks] reader)).
Proof.
  intros reader chunks. split; [reflexivity |].
  apply (chunking_invariance_stripped
           RefJSON.value RefJSON.truthy RefJSON.parse unit
           ReferenceTo.inspect true "010"%char chunks reader);
    [reflexivity | reflexivity | reflexivity | reflexivity | reflexivity
    | left; reflexivity].
Defined.

Lemma pending_buffer_cut_witness :
  let holding :=
    Reference.fresh (mkJsonStream (Some "abc") false false 4 Js.LF false) in
  let empty :=
    Reference.fresh (mkJsonStream None false false 4 Js.LF false) in
  (pending (self (exec (Reference.on_data "defghij") holding)) = "ghij"
   /\ events (exec (Reference.on_data "defghij") holding) = [])
  /\ (pending (self (exec (Reference.on_data "abcdefgh") empty)) = "abcdefgh"
      /\ events (exec (Reference.on_data "abcdefgh") empty) = []).
Proof.
  intros holding empty.
  destruct (pending_buffer_cut
              RefJSON.value RefJSON.truthy RefJSON.parse unit
              holding "defghij") as (_ & Hcut & _).
  destruct (Hcut eq_refl) as (_ & _ & Hkept).
  { vm_compute. split; [discriminate | reflexivity]. }
  destruct (pending_buffer_cut
              RefJSON.value RefJSON.truthy RefJSON.parse unit
              empty "abcdefgh") as (_ & _ & Hwhole).
  split; [exact (Hkept eq_refl) | exact (Hwhole eq_refl eq_refl)].
Defined.

Lemma decode_failure_is_isolated_witness :
  let skipping :=
    fun s => if String.eqb s "{bad json}" then Normal RefJSON.Null
             else RefJSON.parse s in
  let reader := Reference.fresh (new_JsonStream false) in
  let chunks :=
    ["{bad json}" ++ Js.LF ++ "hel"; "lo" ++ Js.LF;
     Js.dquotes "{'ok':true}" ++ Js.LF] in
  events (ReferenceTo.feed true chunks reader)
  = [EvParseError (mkError "JSON Parse Error: Unexpected token in JSON")
       "{bad json}";
     EvText ("hello" ++ Js.LF);
     EvJson (RefJSON.Obj [("ok", RefJSON.Bool true)])]
  /\ exists added,
       events (ReferenceTo.feed true chunks reader) = added
       /\ events (feed_to RefJSON.value RefJSON.truthy skipping unit
                    ReferenceTo.inspect true chunks reader)
          = but_errors_of_r RefJSON.value "{bad json}" added.
Proof.
  intros skipping reader chunks. split; [reflexivity |].
  assert (Helse : forall s, s <> "{bad json}" -> skipping s = RefJSON.parse s).
  { intros s Hs. subst skipping. cbv beta.
    destruct (String.eqb_spec s "{bad json}"); [contradiction | reflexivity]. }
  destruct (decode_failure_is_isolated
              RefJSON.value RefJSON.truthy RefJSON.parse skipping unit
              ReferenceTo.inspect "{bad json}" RefJSON.syntax_error
              RefJSON.Null eq_refl eq_refl eq_refl Helse
              chunks reader false RefJSON.syntax_error RefJSON.Null)
    as ((added & Ha & Hs & _) & _).
  exists added. split; [exact Ha | exact Hs].
Defined.


Lemma write_read_round_trip_witness :
  let value :=
    RefJSON.Obj [("a", RefJSON.Num 1);
                 ("b", RefJSON.Arr [RefJSON.Str ("x" ++ Js.LF ++ "y");
                                    RefJSON.Null])] in
  let writer := Reference.fresh (new_JsonStream false) in
  let reader := Reference.fresh (new_JsonStream false) in
  let chunks :=
    [Js.dquotes "{'a':1,"; Js.dquotes "'b':['x\ny',nu"; "ll]}" ++ Js.LF] in
  map fst (out (exec (Reference.write value) writer))
  = [Js.dquotes "{'a':1,'b':['x\ny',null]}" ++ Js.LF]
  /\ events (ReferenceTo.feed false chunks reader) = [EvJson value].
Proof.
  intros value writer reader chunks.
  destruct (write_read_round_trip
              RefJSON.value RefJSON.truthy RefJSON.parse RefJSON.stringify
              unit Reference.signal ReferenceTo.inspect false
              (new_JsonStream false) (new_JsonStream false) "010"%char
              value (Js.dquotes "{'a':1,'b':['x\ny',null]}") None chunks
              eq_refl eq_refl eq_refl eq_refl eq_refl eq_refl eq_refl
              eq_refl eq_refl eq_refl)
    as (Hwritten & Hevents & _).
  split; [exact Hwritten | exact Hevents].
Defined.

Lemma on_data_completion_witness :
  let reader := Reference.fresh (new_JsonStream false) in
  let chunk :=
    "first" ++ Js.LF ++ "{bad json}" ++ Js.LF ++ "last" ++ Js.LF in
  fst (ReferenceTo.on_data true chunk reader) = Normal tt
  /\ fst (ReferenceTo.on_data false ("first" ++ Js.LF) reader) = Normal tt
  /\ fst (ReferenceTo.on_data false chunk reader)
     = Thrown (mkError "JSON Parse Error: Unexpected token in JSON")
  /\ events (snd (ReferenceTo.on_data false chunk reader))
     = [EvText ("first" ++ Js.LF)].
Proof.
  intros reader chunk.
  destruct (on_data_completion
              RefJSON.value RefJSON.truthy RefJSON.parse unit
              ReferenceTo.inspect true reader chunk) as (Hlisten & _).
  destruct (on_data_completion
              RefJSON.value RefJSON.truthy RefJSON.parse unit
              ReferenceTo.inspect false reader ("first" ++ Js.LF))
    as (_ & Hclean & _).
  destruct (on_data_completion
              RefJSON.value RefJSON.truthy RefJSON.parse unit
              ReferenceTo.inspect false reader chunk) as (_ & _ & Hthrow).
  destruct (Hthrow eq_refl ["first"] ["last"; ""] "{bad json}"
              RefJSON.syntax_error eq_refl eq_refl eq_refl eq_refl)
    as [Hcompletion Hevents].
  split; [exact (Hlisten eq_refl) |].
  split; [exact (Hclean eq_refl) |].
  split; [exact Hcompletion | exact Hevents].
Defined.

Lemma reader_recorder_accounting_witness :
  let reader := Reference.fresh (setPerf true (new_JsonStream false)) in
  let silent := Reference.fresh (new_JsonStream false) in
  let chunks :=
    [Js.dquotes "{'a':1}" ++ Js.LF ++ "{bad}" ++ Js.LF ++ "text" ++ Js.LF] in
  perf_calls (ReferenceTo.feed false chunks silent) = []
  /\ open_spans "json_stream_parse"
       (perf_calls (ReferenceTo.feed true chunks reader)) = 0%Z
  /\ (2 <= counted "json_stream_msgs_read"
             (perf_calls (ReferenceTo.feed true chunks reader)) - 0)%Z
  /\ open_spans "json_stream_parse"
       (perf_calls
          (exec (ReferenceTo.on_data false ("{bad}" ++ Js.LF)) reader))
     = 1%Z.
Proof.
  intros reader silent chunks.
  destruct (reader_recorder_accounting
              RefJSON.value RefJSON.truthy RefJSON.parse unit
              ReferenceTo.inspect false chunks silent) as (Hoff & _).
  destruct (reader_recorder_accounting
              RefJSON.value RefJSON.truthy RefJSON.parse unit
              ReferenceTo.inspect true chunks reader)
    as (_ & Hon & Hopen).
  destruct (Hon eq_refl) as [Hspans Hcount].
  split; [exact (Hoff eq_refl) |].
  split; [exact Hspans |].
  split; [exact (Hcount eq_refl) | exact (Hopen ("{bad}" ++ Js.LF))].
Defined.
